(** * Amazon image renamer: slot store, filename formatter and export passes

    A shallow embedding of [src/App.jsx] (component [ImageRenamerApp]) and
    the properties its specification states about it.

    Conventions of the embedding.
    - A JavaScript string is the list of its UTF-16 code units ([list N]).
      [js] turns an ASCII literal into such a list.
    - A JavaScript array of slots is a [list (option Entry)]; [None] stands
      for [null], [undefined] and holes alike (all three are falsy, which is
      the only thing the component ever asks of them).
    - What the browser decides (case tables outside ASCII, UUIDs, FileReader
      results, whether a programmatic download goes through) is a field of
      the records [Engine] and [Browser], which the operations take as an
      argument; the properties hold for every such record. *)

From Stdlib Require Import NArith Ascii String.
From stdpp Require Import base numbers list.

Local Open Scope N_scope.

Abbreviation jsstring := (list N) (only parsing).

(** ** JavaScript strings *)

Fixpoint js (s : string) : jsstring :=
  match s with
  | EmptyString => []
  | String c rest => N_of_ascii c :: js rest
  end.

(** [WhiteSpace] and [LineTerminator] of ECMAScript: what [trim] removes and
    what [\s] matches. *)
Definition isWhiteSpace (c : N) : bool :=
  bool_decide (9 ≤ c ≤ 13 ∨ c = 32 ∨ c = 160 ∨ c = 5760 ∨ 8192 ≤ c ≤ 8202
               ∨ c = 8232 ∨ c = 8233 ∨ c = 8239 ∨ c = 8287 ∨ c = 12288
               ∨ c = 65279).

Definition isAscii (c : N) : bool := bool_decide (c < 128).

Definition asciiUpper (c : N) : N :=
  if bool_decide (97 ≤ c ≤ 122) then c - 32 else c.

Definition asciiLower (c : N) : N :=
  if bool_decide (65 ≤ c ≤ 90) then c + 32 else c.

(** The engine's Unicode case conversions.  They are consulted only for a
    string that holds a code unit outside ASCII. *)
Record Engine := {
  unicodeUpper : jsstring → jsstring;
  unicodeLower : jsstring → jsstring
}.

(** An engine whose case tables stop at ASCII; used where a closed term is
    needed and the input is ASCII anyway. *)
Definition asciiEngine : Engine :=
  {| unicodeUpper := λ s, s; unicodeLower := λ s, s |}.

Definition toUpperCase (E : Engine) (s : jsstring) : jsstring :=
  if forallb isAscii s then asciiUpper <$> s else unicodeUpper E s.

Definition toLowerCase (E : Engine) (s : jsstring) : jsstring :=
  if forallb isAscii s then asciiLower <$> s else unicodeLower E s.

Fixpoint skipWhile (p : N → bool) (s : jsstring) : jsstring :=
  match s with
  | [] => []
  | c :: rest => if p c then skipWhile p rest else s
  end.

Definition trimStart (s : jsstring) : jsstring := skipWhile isWhiteSpace s.
Definition trimEnd (s : jsstring) : jsstring :=
  reverse (skipWhile isWhiteSpace (reverse s)).
Definition trim (s : jsstring) : jsstring := trimEnd (trimStart s).

(** [s.replace(/C+/g, r)] for a character class [C]: every maximal run of
    units of the class is replaced by [r].  [inRun] records that the unit
    before the current one belonged to a run already replaced. *)
Fixpoint replaceRunsFrom (cls : N → bool) (r : jsstring) (inRun : bool)
    (s : jsstring) : jsstring :=
  match s with
  | [] => []
  | c :: rest =>
      if cls c
      then (if inRun then [] else r) ++ replaceRunsFrom cls r true rest
      else c :: replaceRunsFrom cls r false rest
  end.

Definition replaceRuns (cls : N → bool) (r s : jsstring) : jsstring :=
  replaceRunsFrom cls r false s.

(** [s.replace(/C/g, r)]: every unit of the class is replaced by [r]. *)
Definition replaceEach (cls : N → bool) (r s : jsstring) : jsstring :=
  flat_map (λ c, if cls c then r else [c]) s.

(** [String(i)] for a non-negative integer: its decimal digits. *)
Fixpoint digitsFrom (fuel : nat) (n : nat) (acc : jsstring) : jsstring :=
  match fuel with
  | O => acc
  | S fuel' =>
      let acc' := (48 + N.of_nat (n mod 10)) :: acc in
      if (n / 10 =? 0)%nat then acc' else digitsFrom fuel' (n / 10) acc'
  end.

Definition numberToString (n : nat) : jsstring := digitsFrom (S n) n [].

(** [s.padStart(targetLength, padString)] *)
Definition padStart (targetLength : nat) (padString s : jsstring) : jsstring :=
  let len := length s in
  if (targetLength <=? len)%nat then s
  else match padString with
       | [] => s
       | _ =>
           let fillLen := (targetLength - len)%nat in
           take fillLen (mjoin (replicate fillLen padString)) ++ s
       end.

(** ** Filename formatter (App.jsx, lines 48-56) *)

(** [const imageTypeForIndex = (i) =>
       (i === 0 ? "MAIN" : `PT${String(i).padStart(2, "0")}`)] *)
Definition imageTypeForIndex (i : nat) : jsstring :=
  if (i =? 0)%nat then js "MAIN"
  else js "PT" ++ padStart 2 (js "0") (numberToString i).

(** The class [[A-Z0-9_]] and its complement [[^A-Z0-9_]]. *)
Definition isFilenameUnit (c : N) : bool :=
  bool_decide (65 ≤ c ≤ 90 ∨ 48 ≤ c ≤ 57 ∨ c = 95).
Definition notFilenameUnit (c : N) : bool := negb (isFilenameUnit c).

(** [const normalize = (s) => (s || "").trim().toUpperCase()
       .replace(/\s+/g, "_").replace(/[^A-Z0-9_]/g, "_")] *)
Definition normalize (E : Engine) (s : jsstring) : jsstring :=
  replaceEach notFilenameUnit (js "_")
    (replaceRuns isWhiteSpace (js "_") (toUpperCase E (trim s))).

(** [/\.([^.]+)$/.exec(name)]: the leftmost position holding a dot that is
    followed by at least one unit and by no further dot; the result is the
    capture group. *)
Fixpoint execExt (s : jsstring) : option jsstring :=
  match s with
  | [] => None
  | c :: rest =>
      if bool_decide (c = 46)
         && negb (bool_decide (rest = []))
         && forallb (λ d, negb (bool_decide (d = 46))) rest
      then Some rest
      else execExt rest
  end.

(** [const getExt = (name) => { const m = /\.([^.]+)$/.exec(name || "");
       return (m ? m[1] : "jpg").toLowerCase(); }]
    [None] is an absent ([undefined]) name. *)
Definition getExt (E : Engine) (name : option jsstring) : jsstring :=
  let m := execExt (default [] name) in
  toLowerCase E (default (js "jpg") m).


(** [s.startsWith(prefix)] *)
Definition startsWith (pre s : jsstring) : bool :=
  bool_decide (take (length pre) s = pre).

(** [/SUFFIX$/.test(s)] for a literal suffix. *)
Definition endsWith (suf s : jsstring) : bool :=
  bool_decide (drop (length s - length suf) s = suf).

(** ** Data model *)

(** A browser [File]: the properties the component reads. *)
Record File := { name : jsstring; type : jsstring; bytes : list N }.

(** A slot entry [{id, file, url, error}]. *)
Record Entry := { id : jsstring; file : File; url : jsstring; error : bool }.

(** A pending manual link [{name, url}]. *)
Record Link := { linkName : jsstring; linkUrl : jsstring }.

Abbreviation Slot := (option Entry) (only parsing).

(** The last value passed to [setStatus] by a handler.
    - [Idle]: the initial empty status;
    - [ZipTriggered]: ZIP download triggered;
    - [ZipBlocked]: browser blocked ZIP download, manual link shown below;
    - [ZipError]: error while creating ZIP;
    - [AllTriggered]: all downloads triggered;
    - [SomeBlocked]: browser limited multiple automatic downloads, manual
      links are shown below;
    - [IndividualError]: error while starting individual downloads. *)
Inductive Status :=
  | Idle
  | ZipTriggered
  | ZipBlocked
  | ZipError
  | AllTriggered
  | SomeBlocked
  | IndividualError.

(** The component's state ([useState] cells), and two bookkeeping fields:
    [revoked] logs the URLs the clear-links handler passes to
    [URL.revokeObjectURL]; [tick] counts the handlers run so far and only
    indexes the browser's answers. *)
Record App := {
  files : list Slot;
  product : jsstring;
  date : jsstring;
  diff : jsstring;
  pendingLinks : list Link;
  status : Status;
  revoked : list jsstring;
  tick : nat
}.

(** [setFiles(fs)] *)
Definition withFiles (a : App) (fs : list Slot) : App :=
  {| files := fs; product := product a; date := date a; diff := diff a;
     pendingLinks := pendingLinks a; status := status a;
     revoked := revoked a; tick := tick a |}.

(** [setPendingLinks(links); setStatus(st)] *)
Definition withLinks (a : App) (links : list Link) (st : Status) : App :=
  {| files := files a; product := product a; date := date a; diff := diff a;
     pendingLinks := links; status := st;
     revoked := revoked a; tick := tick a |}.

(** [setStatus(st)] *)
Definition withStatus (a : App) (st : Status) : App :=
  withLinks a (pendingLinks a) st.

(** What the browser answers.  The first index is the [tick] of the handler
    that asks, the second the position of the file within that handler.
    - [randomUUID]: the result of [crypto.randomUUID()];
    - [readerResult]: [Some r] when [FileReader] loads with the string [r],
      [None] when it fails, throws or yields no string;
    - [objectURL]: the URL that [URL.createObjectURL] returns when it
      returns;
    - [objectURLThrows]: whether the call [URL.createObjectURL(item.file)]
      that prepares a manual link in [downloadIndividually] (line 220)
      throws;
    - [syncDownloadOk]: whether [triggerDownloadSync] returns [true];
    - [zipBuilt]: whether the [try] block of [downloadZip] gets as far as
      [setPendingLinks]: the reads, [generateAsync] and
      [URL.createObjectURL(blob)] all succeed;
    - [readOrder]: for [n] reads started together by [downloadZip], the
      order in which they complete (the positions of the files read);
    - [downloadOk]: whether [triggerDownload] returns [true]. *)
Record Browser := {
  engine : Engine;
  randomUUID : nat → nat → jsstring;
  readerResult : nat → nat → option jsstring;
  objectURL : nat → nat → jsstring;
  objectURLThrows : nat → nat → bool;
  syncDownloadOk : nat → nat → bool;
  zipBuilt : nat → bool;
  readOrder : nat → nat → list nat;
  downloadOk : nat → bool
}.

(** [useState] initial values. *)
Definition initialApp : App :=
  {| files := replicate 10 None;
     product := js "TW-NOSEKIT";
     date := js "202511";
     diff := js "WOMENREFRESH";
     pendingLinks := [];
     status := Idle;
     revoked := [];
     tick := 0 |}.

(** ** JavaScript arrays of slots *)

(** [a[i]]: [undefined] out of range. *)
Definition arrayGet (a : list Slot) (i : nat) : Slot :=
  match a !! i with
  | Some v => v
  | None => None
  end.

(** [a[i] = v]: an index past the end extends the array, leaving holes. *)
Definition arraySet (a : list Slot) (i : nat) (v : Slot) : list Slot :=
  if (i <? length a)%nat then <[i:=v]> a
  else a ++ replicate (i - length a) None ++ [v].

(** [const filled = files.filter(Boolean)] *)
Definition filled (fs : list Slot) : list Entry := omap (λ s, s) fs.

(** ** Naming (App.jsx, lines 100-107 and 239) *)

(** [`${normalizedProduct}_${date}_${normalizedDiff}_${type}.${ext}`] with
    [type = imageTypeForIndex(index)] and [ext = getExt(item?.file?.name)]. *)
Definition buildFilename (E : Engine) (a : App) (index : nat) (item : Entry)
    : jsstring :=
  let type' := imageTypeForIndex index in
  let ext := getExt E (Some (name (file item))) in
  mjoin [normalize E (product a); js "_"; date a; js "_";
         normalize E (diff a); js "_"; type'; js "."; ext].

(** [const computeFinalNames = () =>
       filled.map((item, i) => buildFilename(i, item))] *)
Definition computeFinalNames (E : Engine) (a : App) : list jsstring :=
  imap (λ i item, buildFilename E a i item) (filled (files a)).

(** ** Ingestion (App.jsx, lines 129-168) *)

(** The filter of [addFiles]:
    [f && ((f.type && f.type.startsWith("image/"))
           || /\.(jpe?g|png)$/.test(f.name || ""))]
    (the regular expression of line 149 read as [/\.(jpe?g|png)$/]). *)
Definition isImageLike (f : File) : bool :=
  (negb (bool_decide (type f = [])) && startsWith (js "image/") (type f))
  || existsb (λ suf, endsWith suf (name f)) [js ".jpg"; js ".jpeg"; js ".png"].

(** [fileToPreview(file)]: every outcome of the reader resolves to an entry
    with a fresh identifier; a result that is not a data URL sets [error]. *)
Definition fileToPreview (B : Browser) (t k : nat) (f : File) : Entry :=
  match readerResult B t k with
  | Some result =>
      let ok := startsWith (js "data:") result in
      {| id := randomUUID B t k; file := f;
         url := if ok then result else []; error := negb ok |}
  | None =>
      {| id := randomUUID B t k; file := f; url := []; error := true |}
  end.

(** The loop of [addFiles] without a target:
    [let k = 0;
     for (let i = 0; i < next.length && k < prepared.length; i++)
       if (!next[i]) next[i] = prepared[k++];]
    [steps] bounds the iterations; [length next] is enough, as [i] grows at
    every iteration. *)
Fixpoint fillLoop (steps i k : nat) (next : list Slot) (prepared : list Entry)
    : list Slot :=
  match steps with
  | O => next
  | S steps' =>
      if (i <? length next)%nat && (k <? length prepared)%nat then
        match arrayGet next i with
        | Some _ => fillLoop steps' (S i) k next prepared
        | None =>
            fillLoop steps' (S i) (S k) (arraySet next i (prepared !! k))
              prepared
        end
      else next
  end.

(** [addFiles(fileList, targetIndex = null)], as the update it applies to the
    slot array once the previews are prepared. *)
Definition addFiles (B : Browser) (t : nat) (fileList : list File)
    (targetIndex : option nat) (prev : list Slot) : list Slot :=
  let imgs := take 10 (filter (λ f, isImageLike f) fileList) in
  match imgs with
  | [] => prev
  | _ =>
      let prepared := imap (fileToPreview B t) imgs in
      let next := prev in
      match targetIndex with
      | Some target => arraySet next target (head prepared)
      | None => fillLoop (length next) 0 0 next prepared
      end
  end.

(** ** Reorder and remove (App.jsx, lines 241-254) *)

(** [prev.map((item, i) => (i === index ? null : item))] *)
Definition handleRemove (index : nat) (prev : list Slot) : list Slot :=
  imap (λ i item, if bool_decide (i = index) then None else item) prev.

(** [swapFiles(from, to)]; [from] is [null] when no drag is recorded. *)
Definition swapFiles (from : option nat) (to : nat) (prev : list Slot)
    : list Slot :=
  match from with
  | None => prev
  | Some from =>
      if bool_decide (from = to) then prev
      else
        let next := prev in
        let temp := arrayGet next from in
        let next := arraySet next from (arrayGet next to) in
        arraySet next to temp
  end.

(** ** Export (App.jsx, lines 171-236) *)

(** The calls [zip.file(buildFilename(i, item), buf)] of lines 177-183, in
    the order in which they are made: the callback of position [i] makes its
    call when its read [item.file.arrayBuffer()] completes, and [readOrder]
    tells in which order the reads complete.  What JSZip then stores (it
    adds a folder entry for a path that holds a slash) is not modelled. *)
Definition zipFileCalls (B : Browser) (a : App) : list (jsstring * list N) :=
  let fl := filled (files a) in
  omap (λ i, (λ item, (buildFilename (engine B) a i item, bytes (file item)))
               <$> fl !! i)
    (readOrder B (tick a) (length fl)).

(** [`${normalizedProduct}_${date}_${normalizedDiff}.zip`] *)
Definition archiveName (E : Engine) (a : App) : jsstring :=
  mjoin [normalize E (product a); js "_"; date a; js "_";
         normalize E (diff a); js ".zip"].

(** [downloadZip]: nothing happens without a filled slot; a failure while
    building the archive only sets the status. *)
Definition downloadZip (B : Browser) (a : App) : App :=
  match filled (files a) with
  | [] => a
  | _ =>
      if zipBuilt B (tick a) then
        let name' := archiveName (engine B) a in
        let manualUrl := objectURL B (tick a) 0 in
        withLinks a
          ({| linkName := name'; linkUrl := manualUrl |}
           :: filter (λ l, linkName l ≠ name') (pendingLinks a))
          (if downloadOk B (tick a) then ZipTriggered else ZipBlocked)
      else withStatus a ZipError
  end.

(** What one pass of the loop of [downloadIndividually] does: the downloads
    it attempts ([triggerDownloadSync(item.file, filename)], in call order),
    the [manual] array it builds, and whether it was left by an exception
    ([threw]), which takes control to the [catch] of lines 231-234. *)
Record Pass := {
  attempted : list (File * jsstring);
  manual : list Link;
  threw : bool
}.

(** [for (let i = 0; i < filled.length; i++) {
       const item = filled[i];
       const filename = buildFilename(i, item);
       const ok = triggerDownloadSync(item.file, filename);
       if (!ok) {
         const manualUrl = URL.createObjectURL(item.file);
         manual.push({ name: filename, url: manualUrl });
       }
     }]
    [triggerDownloadSync] catches what it throws; the call of
    [URL.createObjectURL] in the loop is not guarded: when it throws, the
    loop is left at once.  [steps] bounds the iterations. *)
Fixpoint individualLoop (B : Browser) (a : App) (steps i : nat)
    (fl : list Entry) (acc : Pass) : Pass :=
  match steps with
  | O => acc
  | S steps' =>
      match fl !! i with
      | None => acc
      | Some item =>
          let filename := buildFilename (engine B) a i item in
          let ok := syncDownloadOk B (tick a) i in
          let tried := attempted acc ++ [(file item, filename)] in
          if ok then
            individualLoop B a steps' (S i) fl
              {| attempted := tried; manual := manual acc;
                 threw := threw acc |}
          else if objectURLThrows B (tick a) i then
            {| attempted := tried; manual := manual acc; threw := true |}
          else
            let manualUrl := objectURL B (tick a) i in
            individualLoop B a steps' (S i) fl
              {| attempted := tried;
                 manual := manual acc
                           ++ [{| linkName := filename; linkUrl := manualUrl |}];
                 threw := threw acc |}
      end
  end.

Definition individualPass (B : Browser) (a : App) : Pass :=
  let fl := filled (files a) in
  individualLoop B a (length fl) 0 fl
    {| attempted := []; manual := []; threw := false |}.

(** [downloadIndividually]: nothing happens without a filled slot; when the
    loop is left by an exception, the [catch] sets the error status and the
    [manual] array is lost. *)
Definition downloadIndividually (B : Browser) (a : App) : App :=
  match filled (files a) with
  | [] => a
  | _ =>
      let p := individualPass B a in
      if threw p then withStatus a IndividualError
      else
        match manual p with
        | [] => withStatus a AllTriggered
        | _ => withLinks a (manual p ++ pendingLinks a) SomeBlocked
        end
  end.

(** The clear-links button:
    [pendingLinks.forEach((l) => l?.url?.startsWith?.('blob:')
                                  && URL.revokeObjectURL(l.url));
     setPendingLinks([]);] *)
Definition clearLinks (a : App) : App :=
  {| files := files a; product := product a; date := date a; diff := diff a;
     pendingLinks := []; status := status a;
     revoked :=
       revoked a
       ++ filter (λ u, startsWith (js "blob:") u) (linkUrl <$> pendingLinks a);
     tick := tick a |}.

(** ** The user-visible commands as a state machine *)

Inductive Op :=
  | AddFiles (fileList : list File) (targetIndex : option nat)
  | HandleRemove (index : nat)
  | SwapFiles (from : option nat) (to : nat)
  | ClearAll
  | SetProduct (v : jsstring)
  | SetDate (v : jsstring)
  | SetDiff (v : jsstring)
  | DownloadZip
  | DownloadIndividually
  | ClearLinks.

Definition handle (B : Browser) (op : Op) (a : App) : App :=
  match op with
  | AddFiles fileList targetIndex =>
      withFiles a (addFiles B (tick a) fileList targetIndex (files a))
  | HandleRemove index => withFiles a (handleRemove index (files a))
  | SwapFiles from to => withFiles a (swapFiles from to (files a))
  | ClearAll => withFiles a (replicate 10 None)
  | SetProduct v =>
      {| files := files a; product := v; date := date a; diff := diff a;
         pendingLinks := pendingLinks a; status := status a;
         revoked := revoked a; tick := tick a |}
  | SetDate v =>
      {| files := files a; product := product a; date := v; diff := diff a;
         pendingLinks := pendingLinks a; status := status a;
         revoked := revoked a; tick := tick a |}
  | SetDiff v =>
      {| files := files a; product := product a; date := date a; diff := v;
         pendingLinks := pendingLinks a; status := status a;
         revoked := revoked a; tick := tick a |}
  | DownloadZip => downloadZip B a
  | DownloadIndividually => downloadIndividually B a
  | ClearLinks => clearLinks a
  end.

(** One command: the handler runs, then the clock advances. *)
Definition step (B : Browser) (op : Op) (a : App) : App :=
  let a' := handle B op a in
  {| files := files a'; product := product a'; date := date a';
     diff := diff a'; pendingLinks := pendingLinks a'; status := status a';
     revoked := revoked a'; tick := S (tick a') |}.

Definition run (B : Browser) (ops : list Op) (a : App) : App :=
  foldl (λ acc op, step B op acc) a ops.

(** ** Definitions that follow the specification's wording *)

(** The filename pattern [{PRODUCT}_{DATE}_{DIFFERENTIATOR}_{TYPE}.{ext}]. *)
Definition filenameFormat (PRODUCT DATE DIFFERENTIATOR TYPE ext : jsstring)
    : jsstring :=
  PRODUCT ++ js "_" ++ DATE ++ js "_" ++ DIFFERENTIATOR ++ js "_" ++ TYPE
  ++ js "." ++ ext.

(** The filename with every field normalized, the date included. *)
Definition allNormalizedFilename (E : Engine) (a : App) (i : nat)
    (item : Entry) : jsstring :=
  filenameFormat (normalize E (product a)) (normalize E (date a))
    (normalize E (diff a)) (imageTypeForIndex i)
    (getExt E (Some (name (file item)))).

(** [i] zero-padded to width 2: its tens digit, then its units digit. *)
Definition zeroPad2 (i : nat) : jsstring :=
  [48 + N.of_nat (i / 10); 48 + N.of_nat (i mod 10)].

(** The type token of a filled position. *)
Definition typeToken (i : nat) : jsstring :=
  match i with
  | O => js "MAIN"
  | _ => js "PT" ++ zeroPad2 i
  end.

(** The rank of slot [k] among the non-empty slots, in slot order: the
    number of occupied slots before it. *)
Definition filledRank (fs : list Slot) (k : nat) : nat :=
  length (filled (take k fs)).

(** The number of empty slots before slot [k]. *)
Definition emptyRank (fs : list Slot) (k : nat) : nat :=
  length (filter (λ s : Slot, s = None) (take k fs)).

(** Stripping: the units outside [[A-Z0-9_]] are removed. *)
Definition stripOutside (s : jsstring) : jsstring :=
  filter (λ c, isFilenameUnit c) s.

(** Normalization as worded: trim, uppercase, collapse whitespace runs to a
    single underscore, strip what is outside [[A-Z0-9_]]. *)
Definition strippingNormalize (E : Engine) (s : jsstring) : jsstring :=
  stripOutside (replaceRuns isWhiteSpace (js "_") (toUpperCase E (trim s))).

(** Every unit outside [[A-Z0-9_]] becomes one underscore. *)
Definition underscoreOutside (s : jsstring) : jsstring :=
  (λ c, if isFilenameUnit c then c else 95) <$> s.

(** The occupied positions of a slot array hold pairwise distinct
    identifiers. *)
Definition distinctIds (fs : list Slot) : Prop :=
  ∀ i j e1 e2,
    fs !! i = Some (Some e1) → fs !! j = Some (Some e2) →
    id e1 = id e2 → i = j.

(** What the slot commands maintain of a grid [fs] at clock [t]: ten slots,
    distinct identifiers, each drawn by an earlier command. *)
Definition storeInvariant (B : Browser) (fs : list Slot) (t : nat) : Prop :=
  length fs = 10%nat
  ∧ distinctIds fs
  ∧ ∀ i e, fs !! i = Some (Some e) →
      ∃ t' k, id e = randomUUID B t' k ∧ (t' < t)%nat.

(** The exchange of two indices. *)
Definition transpose (x y i : nat) : nat :=
  if bool_decide (i = x) then y else if bool_decide (i = y) then x else i.

(** The slot indices a command names are positions of the ten-slot grid. *)
Definition slotCommandInRange (op : Op) : Prop :=
  match op with
  | AddFiles _ (Some target) => (target < 10)%nat
  | AddFiles _ None => True
  | HandleRemove _ => True
  | SwapFiles (Some from) to => (from < 10)%nat ∧ (to < 10)%nat
  | SwapFiles None _ => True
  | _ => False
  end.

(** The three slot commands, whatever their arguments. *)
Definition isSlotCommand (op : Op) : Prop :=
  match op with
  | AddFiles _ _ | HandleRemove _ | SwapFiles _ _ => True
  | _ => False
  end.

(** A source of identifiers that never repeats. *)
Definition neverRepeats (uuid : nat → nat → jsstring) : Prop :=
  ∀ t k t' k', uuid t k = uuid t' k' → t = t' ∧ k = k'.

(** Filling the empty slots of a grid, in ascending order, with the entries
    of a batch, in batch order; what is left of the batch is dropped. *)
Fixpoint fillEmpty (fs : list Slot) (batch : list Entry) : list Slot :=
  match fs, batch with
  | [], _ => []
  | _, [] => fs
  | Some e :: fs', _ => Some e :: fillEmpty fs' batch
  | None :: fs', p :: batch' => Some p :: fillEmpty fs' batch'
  end.

(** The download due at filled position [i]: the entry's file under its
    computed filename. *)
Definition attemptAt (B : Browser) (a : App) (i : nat) (item : Entry)
    : File * jsstring :=
  (file item, buildFilename (engine B) a i item).

(** The manual link due at filled position [i]: none when the trigger goes
    through, one under the computed filename when it fails. *)
Definition fallbackAt (B : Browser) (a : App) (i : nat) (item : Entry)
    : option Link :=
  if syncDownloadOk B (tick a) i then None
  else Some {| linkName := buildFilename (engine B) a i item;
               linkUrl := objectURL B (tick a) i |}.

(** The manual links one pass of individual export has to produce: one per
    filled position whose trigger fails, in filled order, under the name
    computed for that position. *)
Definition blockedLinks (B : Browser) (a : App) : list Link :=
  omap (λ l, l) (imap (fallbackAt B a) (filled (files a))).

(** No trigger of the pass fails. *)
Definition allTriggersOk (B : Browser) (a : App) : bool :=
  forallb (λ i, syncDownloadOk B (tick a) i)
    (seq 0 (length (filled (files a)))).

(** The pass is left at position [i]: the trigger fails there and creating
    the object URL of the manual link throws. *)
Definition fallbackThrowsAt (B : Browser) (a : App) (i : nat) : bool :=
  negb (syncDownloadOk B (tick a) i) && objectURLThrows B (tick a) i.

(** An image-like file, as the specification words it: a declared image
    media type, or a name with the extension [.jpg], [.jpeg] or [.png]. *)
Definition imageLike (f : File) : Prop :=
  js "image/" `prefix_of` type f
  ∨ js ".jpg" `suffix_of` name f
  ∨ js ".jpeg" `suffix_of` name f
  ∨ js ".png" `suffix_of` name f.

#[global] Instance imageLike_dec (f : File) : Decision (imageLike f) :=
  ltac:(unfold imageLike; apply _).

(** A string over [[A-Z0-9_]]. *)
Definition filenameString (s : jsstring) : Prop :=
  Forall (λ c, isFilenameUnit c = true) s.

(** ** Sample data *)

Definition imageFile (n : string) : File :=
  {| name := js n; type := js "image/jpeg"; bytes := [] |}.

Definition sampleEntry (i n : string) : Entry :=
  {| id := js i; file := imageFile n; url := js "data:,"; error := false |}.

(** The initial state with a date typed with a hyphen. *)
Definition hyphenDateApp : App :=
  {| files := files initialApp; product := product initialApp;
     date := js "2025-11"; diff := diff initialApp;
     pendingLinks := []; status := Idle; revoked := []; tick := 0 |}.

(** A grid whose only filled slots are 2 and 5. *)
Definition slots2and5 (e2 e5 : Entry) : list Slot :=
  [None; None; Some e2; None; None; Some e5; None; None; None; None].

Definition twoFilledApp : App :=
  withFiles initialApp
    (slots2and5 (sampleEntry "a" "front.JPG") (sampleEntry "b" "side.png")).

(** Ingestion, a reorder, a removal and a targeted replacement. *)
Definition sampleCommands : list Op :=
  [AddFiles [imageFile "a.jpg"; imageFile "b.png"; imageFile "c.jpeg"] None;
   SwapFiles (Some 0%nat) 2%nat;
   HandleRemove 1%nat;
   AddFiles [imageFile "d.jpg"] (Some 0%nat)].

(** A browser that numbers its identifiers and URLs by clock and position,
    reads every file, builds every archive and blocks the synchronous
    downloads at odd positions. *)
Definition sampleBrowser : Browser :=
  {| engine := asciiEngine;
     randomUUID := λ t k, replicate t 48 ++ 45 :: replicate k 48;
     readerResult := λ _ _, Some (js "data:image/jpeg;base64,AA");
     objectURL := λ t k, js "blob:" ++ replicate t 48 ++ 45 :: replicate k 48;
     objectURLThrows := λ _ _, false;
     syncDownloadOk := λ _ i, Nat.even i;
     zipBuilt := λ _, true;
     readOrder := λ _ n, seq 0 n;
     downloadOk := λ _, true |}.

(** A browser that differs from the sample one in three answers: no
    synchronous download goes through, no object URL can be created for a
    manual link, and the reads of an archive export complete last started
    first. *)
Definition stubbornBrowser : Browser :=
  {| engine := asciiEngine;
     randomUUID := randomUUID sampleBrowser;
     readerResult := readerResult sampleBrowser;
     objectURL := objectURL sampleBrowser;
     objectURLThrows := λ _ _, true;
     syncDownloadOk := λ _ _, false;
     zipBuilt := λ _, true;
     readOrder := λ _ n, reverse (seq 0 n);
     downloadOk := λ _, true |}.



(** One image ingested, then one archive export. *)
Definition afterFirstArchive : App :=
  run sampleBrowser [AddFiles [imageFile "a.jpg"] None; DownloadZip] initialApp.


(** ** Tiles, pickers, drag and drop (App.jsx, lines 122-127, 256-265 and
    343-366) *)

(** The state the tile handlers work on: the component's state and the
    [dragIndex] ref ([null] is [None]). *)
Record Ui := { app : App; dragIndex : option nat }.

(** The controls that run one command with no tile involved. *)
Inductive Control :=
  | ClearAllButton
  | ProductField (v : jsstring)
  | DateField (v : jsstring)
  | DiffField (v : jsstring)
  | ZipButton
  | IndividualButton
  | ClearLinksButton.

Definition controlOp (c : Control) : Op :=
  match c with
  | ClearAllButton => ClearAll
  | ProductField v => SetProduct v
  | DateField v => SetDate v
  | DiffField v => SetDiff v
  | ZipButton => DownloadZip
  | IndividualButton => DownloadIndividually
  | ClearLinksButton => ClearLinks
  end.

(** What the user can do.
    - [PickFiles]: the hidden input changes ([onPickFiles]);
    - [SlotPicked]: the input of [openSlotPicker(slotIndex)] changes;
    - [DragStart], [Drop]: [onDragStart] and [onDrop] of tile [idx];
    - [RemoveClick]: the Remove button of tile [idx];
    - [Use]: one of the other controls. *)
Inductive Event :=
  | PickFiles (picked : list File)
  | SlotPicked (slotIndex : nat) (picked : list File)
  | DragStart (idx : nat)
  | Drop (idx : nat) (dropped : list File)
  | RemoveClick (idx : nat)
  | Use (c : Control).

Definition onApp (B : Browser) (op : Op) (u : Ui) : Ui :=
  {| app := step B op (app u); dragIndex := dragIndex u |}.

(** One event.  The tiles are [files.map((item, idx) => <li ...>)]: an event
    of tile [idx] occurs only for [idx < files.length]; for any other index
    the state is left as it is.
    - [onPickFiles]: [if (!picked.length) return; await addFiles(picked)];
    - [openSlotPicker]:
      [if (picked.length) await addFiles(picked.slice(0, 1), slotIndex)];
    - [onDragStart]: [if (!item) return; dragIndex.current = idx];
    - [onDrop]: [if (dropped.length && !item) addFiles(dropped.slice(0, 1), idx)
                 else swapFiles(dragIndex.current, idx);
                 dragIndex.current = null]. *)
Definition uiStep (B : Browser) (ev : Event) (u : Ui) : Ui :=
  let fs := files (app u) in
  match ev with
  | PickFiles picked =>
      match picked with
      | [] => u
      | _ => onApp B (AddFiles picked None) u
      end
  | SlotPicked slotIndex picked =>
      if (slotIndex <? length fs)%nat then
        match picked with
        | [] => u
        | _ => onApp B (AddFiles (take 1 picked) (Some slotIndex)) u
        end
      else u
  | DragStart idx =>
      if (idx <? length fs)%nat then
        match arrayGet fs idx with
        | None => u
        | Some _ => {| app := app u; dragIndex := Some idx |}
        end
      else u
  | Drop idx dropped =>
      if (idx <? length fs)%nat then
        let item := arrayGet fs idx in
        let u' :=
          match dropped, item with
          | _ :: _, None => onApp B (AddFiles (take 1 dropped) (Some idx)) u
          | _, _ => onApp B (SwapFiles (dragIndex u) idx) u
          end in
        {| app := app u'; dragIndex := None |}
      else u
  | RemoveClick idx =>
      if (idx <? length fs)%nat then onApp B (HandleRemove idx) u else u
  | Use c => onApp B (controlOp c) u
  end.

Definition uiRun (B : Browser) (evs : list Event) (u : Ui) : Ui :=
  foldl (λ acc ev, uiStep B ev acc) u evs.

Definition initialUi : Ui := {| app := initialApp; dragIndex := None |}.



(** ** Further vocabulary *)

(** A string without a dot. *)
Definition dotFree (s : jsstring) : Prop := Forall (λ c, c ≠ 46) s.

(** A string of ASCII units. *)
Definition asciiString (s : jsstring) : Prop :=
  Forall (λ c, isAscii c = true) s.

(** The number of empty slots of a grid. *)
Definition emptyCount (fs : list Slot) : nat :=
  length (filter (λ s : Slot, s = None) fs).

(** A consistent preview: either the error flag is set and there is no URL,
    or the flag is clear and the URL is a [data:] URL. *)
Definition previewConsistent (e : Entry) : Prop :=
  (error e = true ∧ url e = [])
  ∨ (error e = false ∧ startsWith (js "data:") (url e) = true).

(** What the cleanup of the effect of lines 110-119 passes to
    [URL.revokeObjectURL] when it runs on a state: the [blob:] preview URLs
    of the slots, then the [blob:] URLs of the pending links. *)
Definition cleanupRevocations (a : App) : list jsstring :=
  filter (λ u, startsWith (js "blob:") u) (url <$> filled (files a))
  ++ filter (λ u, startsWith (js "blob:") u) (linkUrl <$> pendingLinks a).

(** A slot that is empty or holds an entry made by [fileToPreview]. *)
Definition fromPreview (B : Browser) (s : Slot) : Prop :=
  match s with
  | Some e => ∃ t k f, e = fileToPreview B t k f
  | None => True
  end.

(** The two export commands. *)
Definition isExport (op : Op) : Prop :=
  match op with
  | DownloadZip | DownloadIndividually => True
  | _ => False
  end.

(** What the tile handlers maintain: the store invariant, and a recorded
    drag index that is a position of the grid. *)
Definition uiInvariant (B : Browser) (u : Ui) : Prop :=
  storeInvariant B (files (app u)) (tick (app u))
  ∧ ∀ d, dragIndex u = Some d → (d < 10)%nat.

(** * Properties *)

(** ** Strings *)

Lemma filename_unit_not_space c :
  isFilenameUnit c = true → isWhiteSpace c = false.
Proof.
  unfold isFilenameUnit, isWhiteSpace.
  rewrite bool_decide_eq_true, bool_decide_eq_false. lia.
Qed.

Lemma filename_unit_ascii c : isFilenameUnit c = true → isAscii c = true.
Proof.
  unfold isFilenameUnit, isAscii. rewrite !bool_decide_eq_true. lia.
Qed.

Lemma filename_unit_upper c : isFilenameUnit c = true → asciiUpper c = c.
Proof.
  unfold isFilenameUnit, asciiUpper. rewrite bool_decide_eq_true. intros H.
  rewrite bool_decide_eq_false_2; [done | lia].
Qed.

Lemma skipWhile_filename s : filenameString s → skipWhile isWhiteSpace s = s.
Proof.
  destruct 1 as [| c s Hc _]; simpl; [done |].
  by rewrite (filename_unit_not_space c Hc).
Qed.

Lemma trim_filename s : filenameString s → trim s = s.
Proof.
  intros H. unfold trim, trimStart, trimEnd.
  rewrite (skipWhile_filename s H), skipWhile_filename.
  - apply reverse_involutive.
  - by apply Forall_reverse.
Qed.

Lemma toUpperCase_filename E s : filenameString s → toUpperCase E s = s.
Proof.
  intros H. unfold toUpperCase.
  assert (forallb isAscii s = true) as ->.
  { induction H as [| c s Hc _ IH]; simpl; [done |].
    by rewrite (filename_unit_ascii c Hc). }
  induction H as [| c s Hc _ IH]; simpl; [done |].
  rewrite (filename_unit_upper c Hc). f_equal. apply IH.
Qed.

Lemma replaceRunsFrom_filename r b s :
  filenameString s → replaceRunsFrom isWhiteSpace r b s = s.
Proof.
  intros H. revert b. induction H as [| c s Hc _ IH]; intros b; simpl; [done |].
  rewrite (filename_unit_not_space c Hc). f_equal. apply IH.
Qed.

Lemma replaceEach_filename r s :
  filenameString s → replaceEach notFilenameUnit r s = s.
Proof.
  induction 1 as [| c s Hc _ IH]; simpl; [done |].
  unfold notFilenameUnit at 1. rewrite Hc. simpl. f_equal. apply IH.
Qed.

Lemma replaceEach_underscore s :
  replaceEach notFilenameUnit (js "_") s = underscoreOutside s.
Proof.
  induction s as [| c s IH]; simpl; [done |].
  unfold notFilenameUnit at 1. destruct (isFilenameUnit c); simpl; by f_equal.
Qed.

Lemma underscoreOutside_filename s : filenameString (underscoreOutside s).
Proof.
  induction s as [| c s IH]; simpl; constructor; [| exact IH].
  destruct (isFilenameUnit c) eqn:Hc; [exact Hc | reflexivity].
Qed.

Lemma normalize_filename E s : filenameString (normalize E s).
Proof.
  unfold normalize. rewrite replaceEach_underscore.
  apply underscoreOutside_filename.
Qed.

Lemma normalize_fixes_filename E s : filenameString s → normalize E s = s.
Proof.
  intros H. unfold normalize, replaceRuns.
  rewrite (trim_filename s H), (toUpperCase_filename E s H).
  rewrite (replaceRunsFrom_filename _ _ s H).
  by apply replaceEach_filename.
Qed.

(** ** Filename formatter *)

Lemma imageTypeForIndex_two_digits i :
  (i ≤ 99)%nat → imageTypeForIndex i = typeToken i.
Proof.
  intros H.
  do 100 (destruct i as [| i]; [reflexivity |]).
  lia.
Qed.

(** C2: for every position [i] in [0,9] the type token is [MAIN] when
    [i = 0] and [PT] followed by [i] zero-padded to width 2 otherwise; in
    particular positions 1, 9 and 10 give [PT01], [PT09] and [PT10]. *)
Theorem imageTypeForIndex_tokens (i : nat) :
  (i ≤ 9)%nat →
  imageTypeForIndex i
  = match i with O => js "MAIN" | _ => js "PT" ++ zeroPad2 i end
  ∧ imageTypeForIndex 1 = js "PT01"
  ∧ imageTypeForIndex 9 = js "PT09"
  ∧ imageTypeForIndex 10 = js "PT10".
Proof.
  intros H. split; [| by vm_compute].
  rewrite imageTypeForIndex_two_digits by lia. reflexivity.
Qed.

Lemma imageTypeForIndex_tokens_witness :
  imageTypeForIndex 7
  = match 7%nat with O => js "MAIN" | _ => js "PT" ++ zeroPad2 7 end
  ∧ imageTypeForIndex 1 = js "PT01"
  ∧ imageTypeForIndex 9 = js "PT09"
  ∧ imageTypeForIndex 10 = js "PT10".
Proof. apply (imageTypeForIndex_tokens 7). lia. Defined.

(** C4, as worded, fails: the last replacement of [normalize] puts an
    underscore where the wording strips. *)
Lemma normalize_does_not_strip :
  normalize asciiEngine (js "Tw Nose Kit!")
  ≠ strippingNormalize asciiEngine (js "Tw Nose Kit!").
Proof. intros H. vm_compute in H. discriminate H. Qed.

(** C4, amended: [normalize s] is [s] trimmed, uppercased, with every run of
    whitespace collapsed to one underscore and then every unit outside
    [[A-Z0-9_]] replaced by an underscore; the empty string normalizes to
    the empty string. *)
Theorem normalize_pipeline (E : Engine) (s : jsstring) :
  normalize E s
  = underscoreOutside
      (replaceRuns isWhiteSpace (js "_") (toUpperCase E (trim s)))
  ∧ normalize E (js "") = js "".
Proof.
  split; [| reflexivity].
  unfold normalize. apply replaceEach_underscore.
Qed.

(** C5: normalization is idempotent, and the three sample values are as
    stated. *)
Theorem normalize_idempotent (E : Engine) (s : jsstring) :
  normalize E (normalize E s) = normalize E s
  ∧ normalize E (js "") = js ""
  ∧ normalize E (js "Tw Nose Kit!") = js "TW_NOSE_KIT_"
  ∧ normalize E (js "women refresh") = js "WOMEN_REFRESH".
Proof.
  split; [| by vm_compute].
  apply normalize_fixes_filename, normalize_filename.
Qed.

Lemma buildFilename_as_format E a i item :
  buildFilename E a i item
  = filenameFormat (normalize E (product a)) (date a) (normalize E (diff a))
      (imageTypeForIndex i) (getExt E (Some (name (file item)))).
Proof.
  unfold buildFilename, filenameFormat. simpl. by rewrite app_nil_r.
Qed.

(** The dev-time assertions of [runDevTestsOnce] on the three helpers. *)
Example runDevTestsOnce_assertions (E : Engine) :
  imageTypeForIndex 0 = js "MAIN"
  ∧ imageTypeForIndex 1 = js "PT01"
  ∧ imageTypeForIndex 2 = js "PT02"
  ∧ imageTypeForIndex 9 = js "PT09"
  ∧ imageTypeForIndex 10 = js "PT10"
  ∧ normalize E (js "Tw Nose Kit!") = js "TW_NOSE_KIT_"
  ∧ normalize E (js "women refresh") = js "WOMEN_REFRESH"
  ∧ normalize E (js "") = js ""
  ∧ getExt E (Some (js "photo.JPG")) = js "jpg"
  ∧ getExt E (Some (js "asset.png")) = js "png"
  ∧ getExt E (Some (js "")) = js "jpg".
Proof. by vm_compute. Qed.

(** C1, as worded, fails: the date goes into the filename as typed. *)
Lemma buildFilename_date_verbatim :
  buildFilename asciiEngine hyphenDateApp 0 (sampleEntry "e0" "photo.JPG")
  ≠ allNormalizedFilename asciiEngine hyphenDateApp 0
      (sampleEntry "e0" "photo.JPG").
Proof. intros H. vm_compute in H. discriminate H. Qed.

Example buildFilename_hyphen_date :
  buildFilename asciiEngine hyphenDateApp 0 (sampleEntry "e0" "photo.JPG")
  = js "TW_NOSEKIT_2025-11_WOMENREFRESH_MAIN.jpg".
Proof. reflexivity. Qed.

(** C1, amended: the filename is
    [{PRODUCT}_{DATE}_{DIFFERENTIATOR}_{TYPE}.{ext}] where PRODUCT and
    DIFFERENTIATOR are the normalized product and differentiator, DATE is the
    date string as typed, TYPE is the type token of the position and ext is
    the extension extracted from the entry's original filename. *)
Theorem buildFilename_format (E : Engine) (a : App) (i : nat) (item : Entry) :
  buildFilename E a i item
  = filenameFormat (normalize E (product a)) (date a) (normalize E (diff a))
      (imageTypeForIndex i) (getExt E (Some (name (file item)))).
Proof. apply buildFilename_as_format. Qed.

(** ** Filled sequence and naming *)

Lemma filled_app fs1 fs2 : filled (fs1 ++ fs2) = filled fs1 ++ filled fs2.
Proof. apply omap_app. Qed.

Lemma filled_lookup_rank (fs : list Slot) k e :
  fs !! k = Some (Some e) → filled fs !! filledRank fs k = Some e.
Proof.
  intros H. unfold filledRank.
  replace (filled fs) with (filled (take k fs ++ Some e :: drop (S k) fs))
    by (f_equal; by apply take_drop_middle).
  rewrite filled_app. simpl. apply list_lookup_middle. reflexivity.
Qed.

Lemma filled_length_le (fs : list Slot) : (length (filled fs) ≤ length fs)%nat.
Proof. induction fs as [| [e |] fs IH]; simpl; lia. Qed.

Lemma filledRank_le (fs : list Slot) k : (filledRank fs k ≤ k)%nat.
Proof.
  unfold filledRank.
  etrans; [apply filled_length_le |]. rewrite length_take. lia.
Qed.

Lemma computeFinalNames_lookup E a i item :
  filled (files a) !! i = Some item →
  computeFinalNames E a !! i = Some (buildFilename E a i item).
Proof.
  intros H. unfold computeFinalNames. by rewrite list_lookup_imap, H.
Qed.

(** C3: the type token of an occupied slot is the one of its rank among the
    non-empty slots in slot order, whatever its physical index: the entry of
    slot [k] is the [r]-th of the filled sequence, [r] being that rank, and
    the name computed for it carries [MAIN] when [r = 0] and [PT] followed by
    [r] on two digits otherwise. *)
Theorem filled_rank_token (E : Engine) (a : App) (k : nat) (e : Entry) :
  length (files a) = 10%nat →
  files a !! k = Some (Some e) →
  let r := filledRank (files a) k in
  filled (files a) !! r = Some e
  ∧ computeFinalNames E a !! r
    = Some (filenameFormat (normalize E (product a)) (date a)
              (normalize E (diff a)) (typeToken r)
              (getExt E (Some (name (file e))))).
Proof.
  intros Hlen Hk r.
  pose proof (filled_lookup_rank _ _ _ Hk) as Hr. split; [exact Hr |].
  rewrite (computeFinalNames_lookup E a r e Hr).
  rewrite buildFilename_as_format, imageTypeForIndex_two_digits; [done |].
  pose proof (filledRank_le (files a) k).
  apply lookup_lt_Some in Hk. unfold r. lia.
Qed.

Lemma filled_rank_token_witness :
  filled (files twoFilledApp) !! 1%nat = Some (sampleEntry "b" "side.png")
  ∧ computeFinalNames asciiEngine twoFilledApp !! 1%nat
    = Some (js "TW_NOSEKIT_202511_WOMENREFRESH_PT01.png").
Proof.
  apply (filled_rank_token asciiEngine twoFilledApp 5
           (sampleEntry "b" "side.png")); reflexivity.
Defined.

(** Slots 2 and 5 being the only filled ones, slot 2 is named [MAIN] and
    slot 5 [PT01]. *)
Example slots_2_and_5 (E : Engine) (a : App) (e2 e5 : Entry) :
  files a = slots2and5 e2 e5 →
  filledRank (files a) 2 = 0%nat ∧ filledRank (files a) 5 = 1%nat
  ∧ computeFinalNames E a
    = [filenameFormat (normalize E (product a)) (date a)
         (normalize E (diff a)) (js "MAIN") (getExt E (Some (name (file e2))));
       filenameFormat (normalize E (product a)) (date a)
         (normalize E (diff a)) (js "PT01") (getExt E (Some (name (file e5))))].
Proof.
  intros H. unfold computeFinalNames. rewrite H.
  split; [reflexivity |]. split; [reflexivity |].
  simpl. by rewrite !buildFilename_as_format.
Qed.

(** ** Individual export *)

Lemma fallbackAt_ok B a i item :
  syncDownloadOk B (tick a) i = true → fallbackAt B a i item = None.
Proof. unfold fallbackAt. by intros ->. Qed.

Lemma fallbackAt_blocked B a i item :
  syncDownloadOk B (tick a) i = false →
  fallbackAt B a i item
  = Some {| linkName := buildFilename (engine B) a i item;
            linkUrl := objectURL B (tick a) i |}.
Proof. unfold fallbackAt. by intros ->. Qed.

Lemma imap_take {A C} (f : nat → A → C) n (l : list A) :
  imap f (take n l) = take n (imap f l).
Proof.
  revert f n. induction l as [| x l IH]; intros f [| n]; simpl; try done.
  by rewrite IH.
Qed.

(** A bounded search: a test fails at every number below [n], or succeeds
    at a first one. *)
Lemma first_below (p : nat → bool) (n : nat) :
  (∀ k, (k < n)%nat → p k = false)
  ∨ ∃ k, (k < n)%nat ∧ p k = true ∧ ∀ j, (j < k)%nat → p j = false.
Proof.
  induction n as [| n [Hall | (k & ? & ? & ?)]].
  - left. intros; lia.
  - destruct (p n) eqn:Hn.
    + right. exists n. split; [lia | done].
    + left. intros k Hk.
      destruct (decide (k = n)) as [-> | ?]; [done | apply Hall; lia].
  - right. exists k. split; [lia | done].
Qed.

Section IndividualExport.
Variable B : Browser.
Variable a : App.

Lemma imap_attempt_shift i (l : list Entry) :
  imap ((λ j, attemptAt B a (i + j)) ∘ S) l
  = imap (λ j, attemptAt B a (S i + j)) l.
Proof. apply imap_ext. intros j x _. simpl. f_equal. lia. Qed.

Lemma imap_fallback_shift i (l : list Entry) :
  imap ((λ j, fallbackAt B a (i + j)) ∘ S) l
  = imap (λ j, fallbackAt B a (S i + j)) l.
Proof. apply imap_ext. intros j x _. simpl. f_equal. lia. Qed.

(** When no object URL creation throws from position [i] on, the loop,
    started at [i] with enough iterations left, visits every remaining
    position once, in order. *)
Lemma individualLoop_complete steps i fl acc :
  (length fl ≤ i + steps)%nat →
  (∀ j, (i ≤ j)%nat → (j < length fl)%nat → fallbackThrowsAt B a j = false) →
  individualLoop B a steps i fl acc
  = {| attempted :=
         attempted acc ++ imap (λ j, attemptAt B a (i + j)) (drop i fl);
       manual :=
         manual acc
         ++ omap (λ l, l) (imap (λ j, fallbackAt B a (i + j)) (drop i fl));
       threw := threw acc |}.
Proof.
  revert i acc. induction steps as [| steps IH]; intros i acc Hlen Hno.
  - rewrite drop_ge by lia. destruct acc. simpl. by rewrite !app_nil_r.
  - simpl. destruct (fl !! i) as [item |] eqn:Hi.
    + pose proof (lookup_lt_Some _ _ _ Hi) as Hilt.
      pose proof (Hno i ltac:(lia) Hilt) as Hi_no.
      unfold fallbackThrowsAt in Hi_no.
      rewrite (drop_S fl item i Hi), !imap_cons.
      rewrite imap_attempt_shift, imap_fallback_shift, !Nat.add_0_r.
      destruct (syncDownloadOk B (tick a) i) eqn:Hok.
      * rewrite IH by (try lia; intros; apply Hno; lia).
        rewrite (fallbackAt_ok B a i item Hok). simpl.
        by rewrite <- app_assoc.
      * simpl in Hi_no. rewrite Hi_no.
        rewrite IH by (try lia; intros; apply Hno; lia).
        rewrite (fallbackAt_blocked B a i item Hok). simpl.
        by rewrite <- !app_assoc.
    + apply lookup_ge_None in Hi. rewrite drop_ge by lia.
      destruct acc. simpl. by rewrite !app_nil_r.
Qed.

(** When the first object URL creation that throws from position [i] on is
    the one of position [k], the loop is left there: the positions up to
    [k] have been attempted, the later ones have not. *)
Lemma individualLoop_stops steps i fl acc k :
  (length fl ≤ i + steps)%nat →
  (i ≤ k)%nat → (k < length fl)%nat →
  fallbackThrowsAt B a k = true →
  (∀ j, (i ≤ j)%nat → (j < k)%nat → fallbackThrowsAt B a j = false) →
  threw (individualLoop B a steps i fl acc) = true
  ∧ attempted (individualLoop B a steps i fl acc)
    = attempted acc
      ++ imap (λ j, attemptAt B a (i + j)) (take (S k - i) (drop i fl)).
Proof.
  revert i acc. induction steps as [| steps IH];
    intros i acc Hlen Hik Hk Hthrow Hno; [lia |].
  simpl. destruct (lookup_lt_is_Some_2 fl i ltac:(lia)) as [item Hi].
  rewrite Hi, (drop_S fl item i Hi).
  replace (S k - i)%nat with (S (k - i)) by lia.
  rewrite firstn_cons, imap_cons, imap_attempt_shift, Nat.add_0_r.
  destruct (decide (i = k)) as [-> | Hne].
  - unfold fallbackThrowsAt in Hthrow.
    apply andb_true_iff in Hthrow as [Hok Hobj].
    apply negb_true_iff in Hok. rewrite Hok, Hobj. simpl.
    split; [done |]. by rewrite Nat.sub_diag, take_0.
  - pose proof (Hno i ltac:(lia) ltac:(lia)) as Hi_no.
    unfold fallbackThrowsAt in Hi_no.
    replace (k - i)%nat with (S k - S i)%nat by lia.
    destruct (syncDownloadOk B (tick a) i) eqn:Hok.
    + destruct (IH (S i) {| attempted := attempted acc ++ [(file item,
                               buildFilename (engine B) a i item)];
                            manual := manual acc; threw := threw acc |})
        as [Hthrew Hatt]; try lia; try done.
      { intros; apply Hno; lia. }
      split; [done |]. rewrite Hatt. simpl. by rewrite <- app_assoc.
    + simpl in Hi_no. rewrite Hi_no.
      destruct (IH (S i)
                  {| attempted := attempted acc ++ [(file item,
                       buildFilename (engine B) a i item)];
                     manual := manual acc
                       ++ [{| linkName := buildFilename (engine B) a i item;
                              linkUrl := objectURL B (tick a) i |}];
                     threw := threw acc |})
        as [Hthrew Hatt]; try lia; try done.
      { intros; apply Hno; lia. }
      split; [done |]. rewrite Hatt. simpl. by rewrite <- app_assoc.
Qed.

(** Whatever the browser answers, the downloads attempted are those of the
    first positions, in order. *)
Lemma individualLoop_prefix steps i fl acc :
  ∃ m, attempted (individualLoop B a steps i fl acc)
       = attempted acc
         ++ take m (imap (λ j, attemptAt B a (i + j)) (drop i fl)).
Proof.
  revert i acc. induction steps as [| steps IH]; intros i acc.
  - exists 0%nat. by rewrite take_0, app_nil_r.
  - simpl. destruct (fl !! i) as [item |] eqn:Hi;
      [| exists 0%nat; by rewrite take_0, app_nil_r].
    rewrite (drop_S fl item i Hi), imap_cons, imap_attempt_shift, Nat.add_0_r.
    destruct (syncDownloadOk B (tick a) i);
      [| destruct (objectURLThrows B (tick a) i)].
    + destruct (IH (S i) {| attempted := attempted acc ++ [(file item,
                               buildFilename (engine B) a i item)];
                            manual := manual acc; threw := threw acc |})
        as [m Hm].
      exists (S m). rewrite Hm. simpl. by rewrite <- app_assoc.
    + exists 1%nat. simpl. by rewrite take_0.
    + destruct (IH (S i)
                  {| attempted := attempted acc ++ [(file item,
                       buildFilename (engine B) a i item)];
                     manual := manual acc
                       ++ [{| linkName := buildFilename (engine B) a i item;
                              linkUrl := objectURL B (tick a) i |}];
                     threw := threw acc |})
        as [m Hm].
      exists (S m). rewrite Hm. simpl. by rewrite <- app_assoc.
Qed.

Lemma individualPass_complete :
  (∀ i, (i < length (filled (files a)))%nat → fallbackThrowsAt B a i = false) →
  attempted (individualPass B a)
  = imap (λ i item, (file item, buildFilename (engine B) a i item))
      (filled (files a))
  ∧ manual (individualPass B a) = blockedLinks B a
  ∧ threw (individualPass B a) = false.
Proof.
  intros Hno. unfold individualPass.
  rewrite individualLoop_complete by (try lia; intros; by apply Hno).
  by repeat split.
Qed.

Lemma individualPass_stops k :
  (k < length (filled (files a)))%nat →
  fallbackThrowsAt B a k = true →
  (∀ j, (j < k)%nat → fallbackThrowsAt B a j = false) →
  threw (individualPass B a) = true
  ∧ attempted (individualPass B a)
    = take (S k)
        (imap (λ i item, (file item, buildFilename (engine B) a i item))
           (filled (files a))).
Proof.
  intros Hk Hthrow Hno. unfold individualPass.
  destruct (individualLoop_stops (length (filled (files a))) 0
              (filled (files a))
              {| attempted := []; manual := []; threw := false |} k)
    as [Hthrew Hatt]; try lia; try done.
  { intros; apply Hno; lia. }
  split; [done |]. rewrite Hatt, drop_0, Nat.sub_0_r, imap_take.
  reflexivity.
Qed.

Lemma individualPass_attempted_lookup i item x :
  filled (files a) !! i = Some item →
  attempted (individualPass B a) !! i = Some x →
  x = (file item, buildFilename (engine B) a i item).
Proof.
  intros Hi Hx. unfold individualPass in Hx.
  destruct (individualLoop_prefix (length (filled (files a))) 0
              (filled (files a))
              {| attempted := []; manual := []; threw := false |})
    as [m Hm].
  rewrite Hm in Hx. simpl in Hx. rewrite drop_0 in Hx.
  apply lookup_take_Some in Hx as [Hx _].
  rewrite list_lookup_imap, Hi in Hx. by injection Hx as <-.
Qed.

(** No link is due exactly when no trigger fails. *)
Lemma no_fallback_from (fl : list Entry) (i : nat) :
  omap (λ l, l) (imap (λ j, fallbackAt B a (i + j)) fl) = []
  ↔ forallb (λ j, syncDownloadOk B (tick a) j) (seq i (length fl)) = true.
Proof.
  revert i. induction fl as [| item fl IH]; intros i; [done |].
  rewrite imap_cons, imap_fallback_shift. simpl. rewrite Nat.add_0_r.
  unfold fallbackAt at 1.
  destruct (syncDownloadOk B (tick a) i); simpl; [exact (IH (S i)) | done].
Qed.

Lemma blockedLinks_nil : blockedLinks B a = [] ↔ allTriggersOk B a = true.
Proof. apply (no_fallback_from (filled (files a)) 0). Qed.
End IndividualExport.

(** C8, as worded, fails: when the trigger of a slot fails and the object
    URL of its manual link cannot be created, the pass is left there; the
    next slot is not attempted, no manual link is added and the status is
    the error status. *)
Lemma fallback_throw_aborts_pass :
  length (filled (files twoFilledApp)) = 2%nat
  ∧ syncDownloadOk stubbornBrowser (tick twoFilledApp) 0 = false
  ∧ attempted (individualPass stubbornBrowser twoFilledApp)
    = [(imageFile "front.JPG", js "TW_NOSEKIT_202511_WOMENREFRESH_MAIN.jpg")]
  ∧ pendingLinks (downloadIndividually stubbornBrowser twoFilledApp) = []
  ∧ status (downloadIndividually stubbornBrowser twoFilledApp) ≠ SomeBlocked.
Proof. repeat split; try reflexivity. vm_compute. discriminate. Qed.

(** C8, amended: with at least one filled slot, as long as every object URL
    that a failed trigger asks for can be created, one pass of individual
    export attempts the download of every filled slot, in filled order,
    under its computed filename, whatever the earlier triggers answered;
    the links it adds in front of the pending list are exactly one per slot
    whose trigger failed, under that slot's computed filename; the status
    is "all triggered" when no trigger failed and "some blocked" otherwise.
    When the creation of such an object URL throws, at the first slot [k]
    where it does, the pass stops: the slots up to [k] have been attempted,
    the later ones are not, the pending list is unchanged and the status is
    the error status. *)
Theorem downloadIndividually_pass (B : Browser) (a : App) :
  filled (files a) ≠ [] →
  ((∀ i, (i < length (filled (files a)))%nat →
         fallbackThrowsAt B a i = false) →
     attempted (individualPass B a)
     = imap (λ i item, (file item, buildFilename (engine B) a i item))
         (filled (files a))
     ∧ manual (individualPass B a) = blockedLinks B a
     ∧ pendingLinks (downloadIndividually B a)
       = blockedLinks B a ++ pendingLinks a
     ∧ status (downloadIndividually B a)
       = if allTriggersOk B a then AllTriggered else SomeBlocked)
  ∧ (∀ k, (k < length (filled (files a)))%nat →
          fallbackThrowsAt B a k = true →
          (∀ j, (j < k)%nat → fallbackThrowsAt B a j = false) →
     attempted (individualPass B a)
     = take (S k)
         (imap (λ i item, (file item, buildFilename (engine B) a i item))
            (filled (files a)))
     ∧ pendingLinks (downloadIndividually B a) = pendingLinks a
     ∧ status (downloadIndividually B a) = IndividualError).
Proof.
  intros Hne. split.
  - intros Hno.
    destruct (individualPass_complete B a Hno) as (Hatt & Hman & Hthrew).
    split; [done |]. split; [done |].
    unfold downloadIndividually.
    destruct (filled (files a)) as [| item fl] eqn:Hfl; [done |].
    rewrite Hthrew, Hman.
    pose proof (blockedLinks_nil B a) as Hnil.
    destruct (blockedLinks B a) as [| l ls] eqn:Hbl; simpl.
    + rewrite (proj1 Hnil eq_refl). done.
    + destruct (allTriggersOk B a); [| done].
      by specialize (proj2 Hnil eq_refl).
  - intros k Hk Hthrow Hno.
    destruct (individualPass_stops B a k Hk Hthrow Hno) as [Hthrew Hatt].
    split; [done |].
    unfold downloadIndividually.
    destruct (filled (files a)) as [| item fl] eqn:Hfl; [done |].
    by rewrite Hthrew.
Qed.

Lemma downloadIndividually_pass_witness :
  attempted (individualPass sampleBrowser twoFilledApp)
  = [(imageFile "front.JPG", js "TW_NOSEKIT_202511_WOMENREFRESH_MAIN.jpg");
     (imageFile "side.png", js "TW_NOSEKIT_202511_WOMENREFRESH_PT01.png")]
  ∧ manual (individualPass sampleBrowser twoFilledApp)
    = [{| linkName := js "TW_NOSEKIT_202511_WOMENREFRESH_PT01.png";
          linkUrl := js "blob:-0" |}]
  ∧ pendingLinks (downloadIndividually sampleBrowser twoFilledApp)
    = [{| linkName := js "TW_NOSEKIT_202511_WOMENREFRESH_PT01.png";
          linkUrl := js "blob:-0" |}]
  ∧ status (downloadIndividually sampleBrowser twoFilledApp) = SomeBlocked.
Proof.
  destruct (downloadIndividually_pass sampleBrowser twoFilledApp) as [H _].
  - discriminate.
  - apply H. intros i _. apply andb_false_r.
Defined.

(** The same store with a browser that throws at the first slot: the second
    branch of the amended claim. *)
Example downloadIndividually_stops_at_first_slot :
  attempted (individualPass stubbornBrowser twoFilledApp)
  = take 1
      (imap (λ i item, (file item,
                        buildFilename (engine stubbornBrowser) twoFilledApp
                          i item))
         (filled (files twoFilledApp)))
  ∧ pendingLinks (downloadIndividually stubbornBrowser twoFilledApp)
    = pendingLinks twoFilledApp
  ∧ status (downloadIndividually stubbornBrowser twoFilledApp)
    = IndividualError.
Proof. by repeat split. Qed.

(** ** Agreement of the three name-producing operations *)

Lemma omap_ext_elem {A C} (f g : A → option C) (l : list A) :
  (∀ x, x ∈ l → f x = g x) → omap f l = omap g l.
Proof.
  intros H. apply list_omap_ext, Forall_Forall2_diag, Forall_forall.
  exact H.
Qed.

Lemma omap_lookup_seq {A C} (f : nat → A → C) (l : list A) k :
  omap (λ i, f i <$> l !! (i - k)%nat) (seq k (length l))
  = imap (λ j, f (k + j)%nat) l.
Proof.
  revert k f. induction l as [| x l IH]; intros k f; [done |].
  simpl. rewrite Nat.sub_diag. simpl. rewrite Nat.add_0_r. f_equal.
  rewrite <- (imap_ext (λ j, f (S k + j)%nat) ((λ j, f (k + j)%nat) ∘ S))
    by (intros; simpl; f_equal; lia).
  rewrite <- IH. apply omap_ext_elem. intros i Hi.
  apply elem_of_seq in Hi.
  by replace (i - k)%nat with (S (i - S k)) by lia.
Qed.

(** When every read completes once, the calls of [zip.file] are those of the
    positions of the filled sequence, in the order of completion. *)
Lemma zipFileCalls_permutation B a :
  readOrder B (tick a) (length (filled (files a)))
  ≡ₚ seq 0 (length (filled (files a))) →
  zipFileCalls B a
  ≡ₚ imap (λ i item, (buildFilename (engine B) a i item, bytes (file item)))
       (filled (files a)).
Proof.
  intros Hperm. unfold zipFileCalls. cbv zeta. rewrite Hperm.
  match goal with |- ?x ≡ₚ ?y => enough (x = y) as -> by done end.
  etrans;
    [| exact (omap_lookup_seq
                (λ i item, (buildFilename (engine B) a i item,
                            bytes (file item))) (filled (files a)) 0)].
  apply omap_ext_elem. intros i _. by rewrite Nat.sub_0_r.
Qed.

(** C10, as worded, fails twice: the calls of [zip.file] are made in the
    order in which the reads complete, so the first entry added to the
    archive need not bear the first name of the preview; and an individual
    export that is left by an exception has no download for the later
    positions. *)
Lemma names_out_of_step :
  computeFinalNames asciiEngine twoFilledApp !! 0%nat
  = Some (js "TW_NOSEKIT_202511_WOMENREFRESH_MAIN.jpg")
  ∧ fst <$> zipFileCalls stubbornBrowser twoFilledApp !! 0%nat
    = Some (js "TW_NOSEKIT_202511_WOMENREFRESH_PT01.png")
  ∧ computeFinalNames asciiEngine twoFilledApp !! 1%nat
    = Some (js "TW_NOSEKIT_202511_WOMENREFRESH_PT01.png")
  ∧ snd <$> attempted (individualPass stubbornBrowser twoFilledApp) !! 1%nat
    = None.
Proof. by repeat split. Qed.

(** C10, amended: for a fixed state in which every read of the archive
    export completes once, the three name-producing operations agree on the
    name of every filled position [i]: the [i]-th line of the filename
    preview is [buildFilename] of [i] and of the [i]-th filled entry; the
    archive export passes that very string, with the bytes of that entry's
    file, to [zip.file] (in the order of completion of the reads, not
    necessarily as its [i]-th call); and the individual export uses that
    very string whenever it attempts the download of position [i], which it
    does unless the creation of an object URL threw at an earlier
    position. *)
Theorem names_agree (B : Browser) (a : App) (i : nat) (item : Entry) :
  filled (files a) !! i = Some item →
  readOrder B (tick a) (length (filled (files a)))
  ≡ₚ seq 0 (length (filled (files a))) →
  computeFinalNames (engine B) a !! i
  = Some (buildFilename (engine B) a i item)
  ∧ (buildFilename (engine B) a i item, bytes (file item)) ∈ zipFileCalls B a
  ∧ ((∀ j, (j < i)%nat → fallbackThrowsAt B a j = false) →
     snd <$> attempted (individualPass B a) !! i
     = Some (buildFilename (engine B) a i item))
  ∧ (∀ x, snd <$> attempted (individualPass B a) !! i = Some x →
          x = buildFilename (engine B) a i item).
Proof.
  intros Hi Hperm. split; [by apply computeFinalNames_lookup |]. split.
  - rewrite (zipFileCalls_permutation B a Hperm).
    apply list_elem_of_lookup. exists i. by rewrite list_lookup_imap, Hi.
  - split.
    + intros Hno. pose proof (lookup_lt_Some _ _ _ Hi) as Hilt.
      assert (attempted (individualPass B a) !! i
              = Some (file item, buildFilename (engine B) a i item)) as ->;
        [| done].
      destruct (first_below (fallbackThrowsAt B a)
                  (length (filled (files a))))
        as [Hall | (k & Hk & Hthrow & Hfirst)].
      * destruct (individualPass_complete B a Hall) as (-> & _ & _).
        by rewrite list_lookup_imap, Hi.
      * destruct (individualPass_stops B a k Hk Hthrow Hfirst) as [_ ->].
        assert (i ≤ k)%nat.
        { destruct (decide (i ≤ k)%nat); [done |].
          rewrite (Hno k) in Hthrow by lia. done. }
        rewrite lookup_take_lt by lia.
        by rewrite list_lookup_imap, Hi.
    + intros x Hx.
      destruct (attempted (individualPass B a) !! i) as [[f n] |] eqn:Hatt;
        [| done].
      injection Hx as <-.
      by pose proof (individualPass_attempted_lookup B a i item _ Hi Hatt)
        as [= _ ->].
Qed.

Lemma names_agree_witness :
  computeFinalNames asciiEngine twoFilledApp !! 1%nat
  = Some (buildFilename asciiEngine twoFilledApp 1 (sampleEntry "b" "side.png"))
  ∧ (buildFilename asciiEngine twoFilledApp 1 (sampleEntry "b" "side.png"),
     bytes (file (sampleEntry "b" "side.png")))
    ∈ zipFileCalls sampleBrowser twoFilledApp
  ∧ ((∀ j, (j < 1)%nat → fallbackThrowsAt sampleBrowser twoFilledApp j = false) →
     snd <$> attempted (individualPass sampleBrowser twoFilledApp) !! 1%nat
     = Some (buildFilename asciiEngine twoFilledApp 1
               (sampleEntry "b" "side.png")))
  ∧ (∀ x, snd <$> attempted (individualPass sampleBrowser twoFilledApp) !! 1%nat
          = Some x →
          x = buildFilename asciiEngine twoFilledApp 1
                (sampleEntry "b" "side.png")).
Proof.
  apply (names_agree sampleBrowser twoFilledApp 1 (sampleEntry "b" "side.png")).
  - reflexivity.
  - reflexivity.
Defined.

(** ** Ingestion *)

Lemma fillEmpty_nil_r (fs : list Slot) : fillEmpty fs [] = fs.
Proof. by destruct fs as [| [e |] fs]. Qed.

Lemma arrayGet_lookup (fs : list Slot) i v :
  fs !! i = Some v → arrayGet fs i = v.
Proof. unfold arrayGet. by intros ->. Qed.

Lemma arraySet_in_range (fs : list Slot) i v :
  (i < length fs)%nat → arraySet fs i v = <[i:=v]> fs.
Proof.
  intros H. unfold arraySet.
  by rewrite (proj2 (Nat.ltb_lt _ _) H).
Qed.

(** The loop fills the empty slots from position [i] on with the batch from
    position [k] on, and leaves the slots before [i] as they are. *)
Lemma fillLoop_spec steps i k (next : list Slot) prepared :
  (length next ≤ i + steps)%nat →
  fillLoop steps i k next prepared
  = take i next ++ fillEmpty (drop i next) (drop k prepared).
Proof.
  revert i k next. induction steps as [| steps IH]; intros i k next Hlen.
  - rewrite (drop_ge next) by lia. simpl.
    rewrite app_nil_r, take_ge by lia. done.
  - simpl.
    destruct (Nat.ltb_spec i (length next)) as [Hi | Hi]; simpl.
    2: { rewrite (drop_ge next) by lia. simpl.
         rewrite app_nil_r, take_ge by lia. done. }
    destruct (Nat.ltb_spec k (length prepared)) as [Hk | Hk].
    2: { rewrite (drop_ge prepared) by lia.
         by rewrite fillEmpty_nil_r, take_drop. }
    destruct (lookup_lt_is_Some_2 next i Hi) as [v Hv].
    destruct (lookup_lt_is_Some_2 prepared k Hk) as [p Hp].
    rewrite (arrayGet_lookup _ _ _ Hv).
    rewrite (drop_S next v i Hv), (drop_S prepared p k Hp).
    destruct v as [e |].
    + rewrite IH by lia. rewrite (take_S_r next i _ Hv).
      rewrite <- app_assoc. simpl. by rewrite (drop_S prepared p k Hp).
    + rewrite IH by (rewrite arraySet_in_range, length_insert by done; lia).
      rewrite arraySet_in_range by done. rewrite Hp.
      rewrite (take_S_r (<[i:=Some p]> next) i (Some p))
        by (by apply list_lookup_insert_eq).
      rewrite take_insert_ge, drop_insert_lt by lia.
      by rewrite <- app_assoc.
Qed.

Lemma fillEmpty_length (fs : list Slot) batch :
  length (fillEmpty fs batch) = length fs.
Proof.
  revert batch. induction fs as [| [e |] fs IH]; intros [| p batch]; simpl;
    by rewrite ?IH.
Qed.

Lemma fillEmpty_occupied (fs : list Slot) batch k e :
  fs !! k = Some (Some e) → fillEmpty fs batch !! k = Some (Some e).
Proof.
  revert batch k. induction fs as [| s fs IH]; intros batch k H; [done |].
  destruct batch as [| p batch]; [by rewrite fillEmpty_nil_r |].
  destruct k as [| k], s as [e' |]; simpl in *; try done; by apply IH.
Qed.

Lemma emptyRank_cons (s : Slot) (fs : list Slot) k :
  emptyRank (s :: fs) (S k)
  = ((if s is None then 1 else 0) + emptyRank fs k)%nat.
Proof.
  unfold emptyRank. simpl. rewrite filter_cons.
  destruct s; by case_decide.
Qed.

Lemma fillEmpty_empty (fs : list Slot) batch k :
  fs !! k = Some None → fillEmpty fs batch !! k = Some (batch !! emptyRank fs k).
Proof.
  revert batch k. induction fs as [| s fs IH]; intros batch k H; [done |].
  destruct batch as [| p batch]; [by rewrite fillEmpty_nil_r, H |].
  destruct k as [| k].
  - simpl in H. injection H as ->. reflexivity.
  - rewrite emptyRank_cons. destruct s as [e |]; simpl in *; by apply IH.
Qed.

Lemma startsWith_prefix (pre s : jsstring) :
  startsWith pre s = true ↔ pre `prefix_of` s.
Proof.
  unfold startsWith. rewrite bool_decide_eq_true. split.
  - intros H. exists (drop (length pre) s).
    by rewrite <- H at 1; rewrite take_drop.
  - intros [k ->]. apply take_app_length.
Qed.

Lemma endsWith_suffix (suf s : jsstring) :
  endsWith suf s = true ↔ suf `suffix_of` s.
Proof.
  unfold endsWith. rewrite bool_decide_eq_true. split.
  - intros H. exists (take (length s - length suf) s).
    by rewrite <- H at 2; rewrite take_drop.
  - intros [k ->]. rewrite length_app.
    replace (length k + length suf - length suf)%nat with (length k) by lia.
    apply drop_app_length.
Qed.

(** The filter of [addFiles] accepts exactly the image-like files. *)
Lemma isImageLike_spec (f : File) : isImageLike f = true ↔ imageLike f.
Proof.
  unfold isImageLike, imageLike.
  rewrite orb_true_iff, andb_true_iff, negb_true_iff, bool_decide_eq_false.
  rewrite startsWith_prefix. simpl existsb.
  rewrite !orb_true_iff, !endsWith_suffix. split.
  - intros [[_ H] | [H | [H | [H | H]]]]; auto. done.
  - intros [H | [H | [H | H]]]; auto.
    left. split; [| done]. destruct H as [k ->]. discriminate.
Qed.

Lemma filter_isImageLike (l : list File) :
  filter (λ f, isImageLike f) l = filter imageLike l.
Proof.
  apply list_filter_iff. intros f.
  rewrite <- isImageLike_spec. apply Is_true_true.
Qed.

Lemma fileToPreview_file B t k f : file (fileToPreview B t k f) = f.
Proof. unfold fileToPreview. by destruct (readerResult B t k). Qed.

(** C7: without a target slot, [addFiles] keeps the candidates that are
    image-like (a media type that starts with [image/], or a name that ends
    with [.jpg], [.jpeg] or [.png]), at most the first ten of them, in
    batch order; it leaves the number of slots and every occupied slot as
    they are; the empty slot with [j] empty slots before it receives the
    entry prepared for the [j]-th accepted file, an entry whose file is that
    very file, and stays empty when the batch has no [j]-th file, so
    accepted files beyond the number of empty slots are dropped. *)
Theorem addFiles_fills_empty_slots (B : Browser) (t : nat)
    (fileList : list File) (prev : list Slot) :
  let accepted := take 10 (filter imageLike fileList) in
  let next := addFiles B t fileList None prev in
  (length accepted ≤ 10)%nat
  ∧ (∀ f, f ∈ accepted → imageLike f ∧ f ∈ fileList)
  ∧ length next = length prev
  ∧ (∀ k e, prev !! k = Some (Some e) → next !! k = Some (Some e))
  ∧ (∀ k, prev !! k = Some None →
       next !! k
       = Some (fileToPreview B t (emptyRank prev k)
                 <$> accepted !! emptyRank prev k))
  ∧ (∀ k f, prev !! k = Some None →
       accepted !! emptyRank prev k = Some f →
       ∃ e, next !! k = Some (Some e) ∧ file e = f)
  ∧ (∀ k, prev !! k = Some None →
       accepted !! emptyRank prev k = None → next !! k = Some None).
Proof.
  intros accepted next.
  split; [unfold accepted; rewrite length_take; lia |].
  split.
  { intros f Hf. apply elem_of_take in Hf as (i & Hf & _).
    by apply list_elem_of_lookup_2, list_elem_of_filter in Hf. }
  assert (next = fillEmpty prev (imap (fileToPreview B t) accepted)) as ->.
  { unfold next, addFiles. rewrite filter_isImageLike. fold accepted.
    destruct accepted as [| f fs]; [by rewrite fillEmpty_nil_r |].
    rewrite fillLoop_spec by lia. by rewrite !drop_0. }
  split; [apply fillEmpty_length |].
  split; [intros k e H; by apply fillEmpty_occupied |].
  assert (∀ k, prev !! k = Some None →
            fillEmpty prev (imap (fileToPreview B t) accepted) !! k
            = Some (fileToPreview B t (emptyRank prev k)
                      <$> accepted !! emptyRank prev k)) as Hempty.
  { intros k H. rewrite (fillEmpty_empty _ _ _ H).
    by rewrite list_lookup_imap. }
  split; [exact Hempty |]. split.
  - intros k f Hk Hf. rewrite (Hempty k Hk), Hf. simpl.
    eexists. split; [done |]. apply fileToPreview_file.
  - intros k Hk Hf. by rewrite (Hempty k Hk), Hf.
Qed.

(** Ten slots, three of them empty, and a batch of five candidates of which
    four are image-like: the first three are placed, the fourth is dropped,
    the other candidate is not accepted. *)
Example addFiles_batch_of_five :
  (λ s : Slot, name ∘ file <$> s)
    <$> addFiles sampleBrowser 0
          [imageFile "one.gif";
           {| name := js "notes.txt"; type := js "text/plain"; bytes := [] |};
           {| name := js "two.jpeg"; type := []; bytes := [] |};
           {| name := js "three.png"; type := []; bytes := [] |};
           {| name := js "four.jpg"; type := []; bytes := [] |}]
          None
          [Some (sampleEntry "a" "a.jpg"); None; Some (sampleEntry "b" "b.jpg");
           Some (sampleEntry "c" "c.jpg"); None; Some (sampleEntry "d" "d.jpg");
           Some (sampleEntry "e" "e.jpg"); Some (sampleEntry "f" "f.jpg");
           None; Some (sampleEntry "g" "g.jpg")]
  = [Some (js "a.jpg"); Some (js "one.gif"); Some (js "b.jpg");
     Some (js "c.jpg"); Some (js "two.jpeg"); Some (js "d.jpg");
     Some (js "e.jpg"); Some (js "f.jpg"); Some (js "three.png");
     Some (js "g.jpg")].
Proof. reflexivity. Qed.

(** ** Slot invariant *)

Lemma fileToPreview_id B t k f : id (fileToPreview B t k f) = randomUUID B t k.
Proof. unfold fileToPreview. by destruct (readerResult B t k). Qed.

Lemma emptyRank_lt (fs : list Slot) i j :
  (i < j)%nat → fs !! i = Some None → (emptyRank fs i < emptyRank fs j)%nat.
Proof.
  revert i j. induction fs as [| s fs IH]; intros i j Hij Hi; [done |].
  destruct j as [| j]; [lia |]. rewrite emptyRank_cons.
  destruct i as [| i].
  - simpl in Hi. injection Hi as ->. unfold emptyRank at 1. simpl. lia.
  - rewrite emptyRank_cons. simpl in Hi.
    specialize (IH i j ltac:(lia) Hi). lia.
Qed.

Lemma emptyRank_inj (fs : list Slot) i j :
  fs !! i = Some None → fs !! j = Some None →
  emptyRank fs i = emptyRank fs j → i = j.
Proof.
  intros Hi Hj Heq.
  destruct (Nat.lt_trichotomy i j) as [Hlt | [-> | Hlt]]; [| done |].
  - pose proof (emptyRank_lt fs i j Hlt Hi). lia.
  - pose proof (emptyRank_lt fs j i Hlt Hj). lia.
Qed.

Lemma transpose_inj x y i j : transpose x y i = transpose x y j → i = j.
Proof. unfold transpose. repeat case_bool_decide; congruence. Qed.

Lemma swap_lookup (fs : list Slot) x y i :
  (x < length fs)%nat → (y < length fs)%nat → x ≠ y →
  arraySet (arraySet fs x (arrayGet fs y)) y (arrayGet fs x) !! i
  = fs !! transpose x y i.
Proof.
  intros Hx Hy Hxy.
  destruct (lookup_lt_is_Some_2 fs x Hx) as [vx Hvx].
  destruct (lookup_lt_is_Some_2 fs y Hy) as [vy Hvy].
  rewrite (arrayGet_lookup _ _ _ Hvx), (arrayGet_lookup _ _ _ Hvy).
  rewrite (arraySet_in_range fs) by done.
  rewrite arraySet_in_range by (by rewrite length_insert).
  unfold transpose. case_bool_decide as H1; [subst i |].
  - rewrite list_lookup_insert_ne by done.
    by rewrite list_lookup_insert_eq.
  - case_bool_decide as H2; [subst i |].
    + by rewrite list_lookup_insert_eq by (by rewrite length_insert).
    + by rewrite !list_lookup_insert_ne by done.
Qed.

Section SlotInvariant.
Variable B : Browser.
Hypothesis fresh : neverRepeats (randomUUID B).

Lemma storeInvariant_initial : storeInvariant B (replicate 10 None) 0.
Proof.
  split; [done |]. split.
  - intros i j e1 e2 H. by apply lookup_replicate in H as [? _].
  - intros i e H. by apply lookup_replicate in H as [? _].
Qed.

(** A grid whose entries all come from the old one, through an injective
    change of index. *)
Lemma storeInvariant_reindex (fs fs' : list Slot) t (σ : nat → nat) :
  storeInvariant B fs t →
  length fs' = 10%nat →
  (∀ i j, σ i = σ j → i = j) →
  (∀ i e, fs' !! i = Some (Some e) → fs !! σ i = Some (Some e)) →
  storeInvariant B fs' (S t).
Proof.
  intros (Hlen & Hdist & Hprov) Hlen' Hinj Hfrom.
  split; [done |]. split.
  - intros i j e1 e2 Hi Hj Hid.
    apply Hinj. eapply Hdist; eauto.
  - intros i e Hi. destruct (Hprov _ _ (Hfrom _ _ Hi)) as (t' & k & ? & ?).
    exists t', k. split; [done | lia].
Qed.

(** A grid whose entries are old ones left in place or entries drawn at
    clock [t], at positions [new] that determine the draw. *)
Lemma storeInvariant_add (fs fs' : list Slot) t (new : nat → nat) :
  storeInvariant B fs t →
  length fs' = 10%nat →
  (∀ i e, fs' !! i = Some (Some e) →
     fs !! i = Some (Some e)
     ∨ (id e = randomUUID B t (new i)
        ∧ ∀ j e', fs' !! j = Some (Some e') →
            id e' = randomUUID B t (new j) → new i = new j → i = j)) →
  storeInvariant B fs' (S t).
Proof.
  intros (Hlen & Hdist & Hprov) Hlen' Hcase.
  split; [done |]. split.
  - intros i j e1 e2 Hi Hj Hid.
    destruct (Hcase _ _ Hi) as [Hi' | [Hi' Hnew1]],
             (Hcase _ _ Hj) as [Hj' | [Hj' Hnew2]].
    + eapply Hdist; eauto.
    + destruct (Hprov _ _ Hi') as (t' & k & Hk & Hlt).
      rewrite Hk, Hj' in Hid. apply fresh in Hid as [-> _]. lia.
    + destruct (Hprov _ _ Hj') as (t' & k & Hk & Hlt).
      rewrite Hk, Hi' in Hid. apply fresh in Hid as [-> _]. lia.
    + rewrite Hi', Hj' in Hid. apply fresh in Hid as [_ Hid].
      by apply (Hnew1 j e2).
  - intros i e Hi. destruct (Hcase _ _ Hi) as [Hi' | [Hi' _]].
    + destruct (Hprov _ _ Hi') as (t' & k & ? & ?).
      exists t', k. split; [done | lia].
    + exists t, (new i). split; [done | lia].
Qed.

Lemma storeInvariant_unchanged (fs : list Slot) t :
  storeInvariant B fs t → storeInvariant B fs (S t).
Proof.
  intros H. apply (storeInvariant_reindex fs fs t (λ i, i)); try done.
  apply H.
Qed.

Lemma addFiles_invariant fileList targetIndex (fs : list Slot) t :
  slotCommandInRange (AddFiles fileList targetIndex) →
  storeInvariant B fs t →
  storeInvariant B (addFiles B t fileList targetIndex fs) (S t).
Proof.
  intros Hrange Hinv. pose proof Hinv as (Hlen & _ & _).
  unfold addFiles.
  destruct (take 10 (filter (λ f, isImageLike f) fileList))
    as [| f imgs] eqn:Himgs; [by apply storeInvariant_unchanged |].
  destruct targetIndex as [target |].
  - simpl in Hrange. rewrite arraySet_in_range by lia. simpl.
    apply (storeInvariant_add fs _ t (λ _, 0%nat)); try done.
    + by rewrite length_insert.
    + intros i e Hi.
      apply list_lookup_insert_Some in Hi as [(-> & He & _) | [_ Hi]];
        [right | by left].
      injection He as <-. split; [apply fileToPreview_id |].
      intros j e' Hj Hid _.
      apply list_lookup_insert_Some in Hj as [(-> & _ & _) | [_ Hj]];
        [done |].
      destruct Hinv as (_ & _ & Hprov).
      destruct (Hprov _ _ Hj) as (t' & k & Hk & Hlt).
      rewrite Hk in Hid. apply fresh in Hid as [-> _]. lia.
  - rewrite fillLoop_spec by lia. rewrite !drop_0. simpl take.
    rewrite app_nil_l.
    set (prepared := imap (fileToPreview B t) (f :: imgs)).
    assert (∀ i e, fillEmpty fs prepared !! i = Some (Some e) →
              fs !! i = Some (Some e)
              ∨ (fs !! i = Some None
                 ∧ id e = randomUUID B t (emptyRank fs i))) as Hcase.
    { intros i e Hi.
      assert (is_Some (fs !! i)) as [[e0 |] Hfs].
      { apply lookup_lt_is_Some.
        apply lookup_lt_Some in Hi. by rewrite fillEmpty_length in Hi. }
      - left. rewrite (fillEmpty_occupied _ prepared _ _ Hfs) in Hi.
        by injection Hi as ->.
      - right. split; [done |].
        rewrite (fillEmpty_empty _ prepared _ Hfs) in Hi.
        injection Hi as Hi. unfold prepared in Hi.
        rewrite list_lookup_imap in Hi.
        destruct ((f :: imgs) !! emptyRank fs i) as [f' |]; [| done].
        injection Hi as <-. apply fileToPreview_id. }
    apply (storeInvariant_add fs _ t (emptyRank fs)); try done.
    + by rewrite fillEmpty_length.
    + intros i e Hi. destruct (Hcase _ _ Hi) as [? | [Hnone Hid]];
        [by left | right].
      split; [done |]. intros j e' Hj Hid' Hrank.
      destruct (Hcase _ _ Hj) as [Hold | [Hnone' _]].
      * destruct Hinv as (_ & _ & Hprov).
        destruct (Hprov _ _ Hold) as (t' & k & Hk & Hlt).
        rewrite Hk in Hid'. apply fresh in Hid' as [-> _]. lia.
      * by apply (emptyRank_inj fs).
Qed.

Lemma handleRemove_invariant index (fs : list Slot) t :
  storeInvariant B fs t → storeInvariant B (handleRemove index fs) (S t).
Proof.
  intros Hinv. pose proof Hinv as (Hlen & _ & _).
  apply (storeInvariant_reindex fs _ t (λ i, i)); try done.
  - unfold handleRemove. by rewrite length_imap.
  - intros i e. unfold handleRemove. rewrite list_lookup_imap.
    destruct (fs !! i) as [v |]; simpl; [| done].
    case_bool_decide; [done |]. by intros [= ->].
Qed.

Lemma swapFiles_invariant from to (fs : list Slot) t :
  slotCommandInRange (SwapFiles from to) →
  storeInvariant B fs t → storeInvariant B (swapFiles from to fs) (S t).
Proof.
  intros Hrange Hinv. pose proof Hinv as (Hlen & _ & _).
  unfold swapFiles. destruct from as [from |];
    [| by apply storeInvariant_unchanged].
  case_bool_decide as Hne; [by apply storeInvariant_unchanged |].
  simpl in Hrange. destruct Hrange as [Hfrom Hto].
  apply (storeInvariant_reindex fs _ t (transpose from to)); try done.
  - rewrite (arraySet_in_range fs) by lia.
    rewrite arraySet_in_range by (rewrite length_insert; lia).
    by rewrite !length_insert.
  - apply transpose_inj.
  - intros i e. by rewrite swap_lookup by lia.
Qed.

Lemma step_invariant op a :
  slotCommandInRange op →
  storeInvariant B (files a) (tick a) →
  storeInvariant B (files (step B op a)) (tick (step B op a)).
Proof.
  intros Hrange Hinv. destruct op; simpl in *; try done.
  - by apply addFiles_invariant.
  - by apply handleRemove_invariant.
  - by apply swapFiles_invariant.
Qed.

Lemma run_invariant ops a :
  Forall slotCommandInRange ops →
  storeInvariant B (files a) (tick a) →
  storeInvariant B (files (run B ops a)) (tick (run B ops a)).
Proof.
  intros Hops. revert a. induction Hops as [| op ops Hop _ IH]; intros a Hinv;
    [done |].
  apply (IH (step B op a)). by apply step_invariant.
Qed.
End SlotInvariant.

(** C6, as worded, fails: a target index past the grid extends the array. *)
Lemma slot_count_broken_by_far_target :
  isSlotCommand (AddFiles [imageFile "a.jpg"] (Some 12%nat))
  ∧ length (files (run sampleBrowser
                     [AddFiles [imageFile "a.jpg"] (Some 12%nat)] initialApp))
    ≠ 10%nat.
Proof. split; [exact I |]. vm_compute. discriminate. Qed.

Example swap_past_the_grid :
  length (files (run sampleBrowser
                   [AddFiles [imageFile "a.jpg"] None;
                    SwapFiles (Some 0%nat) 12%nat] initialApp)) = 13%nat.
Proof. reflexivity. Qed.

(** C6, amended: identifiers never repeating, after every sequence of
    add-files, remove-slot and swap-slots commands whose target and swap
    indices are positions of the grid (below 10), applied to the initial
    all-empty store, the store has exactly 10 positions and no two occupied
    positions hold entries with the same identifier. *)
Theorem slot_invariant (B : Browser) (ops : list Op) :
  neverRepeats (randomUUID B) →
  Forall slotCommandInRange ops →
  length (files (run B ops initialApp)) = 10%nat
  ∧ distinctIds (files (run B ops initialApp)).
Proof.
  intros Hfresh Hops.
  destruct (run_invariant B Hfresh ops initialApp Hops) as (Hlen & Hdist & _).
  - apply storeInvariant_initial.
  - by split.
Qed.

Lemma sampleUUID_never_repeats : neverRepeats (randomUUID sampleBrowser).
Proof.
  assert (∀ n m : nat, replicate n 48 = replicate m 48 :> list N → n = m)
    as Hrep.
  { intros n m H. apply (f_equal length) in H.
    by rewrite !length_replicate in H. }
  intros t. simpl. induction t as [| t IH]; intros k [| t'] k' H; simpl in H.
  - injection H as H. split; [done | by apply Hrep].
  - discriminate H.
  - discriminate H.
  - injection H as H. destruct (IH _ _ _ H) as [-> ->]. done.
Qed.

Lemma slot_invariant_witness :
  length (files (run sampleBrowser sampleCommands initialApp)) = 10%nat
  ∧ distinctIds (files (run sampleBrowser sampleCommands initialApp)).
Proof.
  apply (slot_invariant sampleBrowser sampleCommands).
  - exact sampleUUID_never_repeats.
  - repeat constructor; simpl; lia.
Defined.

Example sampleCommands_result :
  (λ s : Slot, name ∘ file <$> s)
    <$> files (run sampleBrowser sampleCommands initialApp)
  = [Some (js "d.jpg"); None; Some (js "a.jpg"); None; None; None; None;
     None; None; None].
Proof. reflexivity. Qed.

(** ** Pending manual links *)







(** * Further properties of the code *)

(** ** [normalize], [getExt], [imageTypeForIndex] *)

(** X1: whatever the input and the engine, [normalize] returns a string over
    [[A-Z0-9_]]: no whitespace, no lowercase letter, no dot, no separator
    survives. *)
Theorem normalize_output_alphabet (E : Engine) (s : jsstring) :
  Forall (λ c, 65 ≤ c ≤ 90 ∨ 48 ≤ c ≤ 57 ∨ c = 95) (normalize E s).
Proof.
  eapply Forall_impl; [apply normalize_filename |].
  intros c Hc. by apply bool_decide_eq_true in Hc.
Qed.

Lemma forallb_no_dot_spec (s : jsstring) :
  forallb (λ d, negb (bool_decide (d = 46))) s = true ↔ dotFree s.
Proof.
  unfold dotFree. induction s as [| c s IH]; simpl.
  - split; [constructor | done].
  - rewrite andb_true_iff, IH, Forall_cons, negb_true_iff,
      bool_decide_eq_false. done.
Qed.

Lemma forallb_no_dot_middle (s e : jsstring) :
  forallb (λ d, negb (bool_decide (d = 46))) (s ++ 46 :: e) = false.
Proof.
  induction s as [| c s IH]; simpl; [done |].
  rewrite IH. apply andb_false_r.
Qed.

Lemma execExt_after_last_dot (stem e : jsstring) :
  e ≠ [] → dotFree e → execExt (stem ++ 46 :: e) = Some e.
Proof.
  intros Hne Hdot. induction stem as [| c stem IH]; simpl.
  - rewrite (bool_decide_eq_false_2 (e = [])) by done.
    by rewrite (proj2 (forallb_no_dot_spec e) Hdot).
  - by rewrite forallb_no_dot_middle, andb_false_r.
Qed.

Lemma execExt_dot_free (s : jsstring) : dotFree s → execExt s = None.
Proof.
  induction 1 as [| c s Hc _ IH]; simpl; [done |].
  by rewrite (bool_decide_eq_false_2 (c = 46)) by done.
Qed.

Lemma execExt_trailing_dot (t : jsstring) : execExt (t ++ [46]) = None.
Proof.
  induction t as [| c t IH]; simpl.
  - reflexivity.
  - by rewrite forallb_no_dot_middle, andb_false_r.
Qed.

Lemma execExt_Some (s e : jsstring) :
  execExt s = Some e → e ≠ [] ∧ dotFree e ∧ ∃ stem, s = stem ++ 46 :: e.
Proof.
  induction s as [| c s IH]; simpl; [done |].
  destruct (bool_decide (c = 46) && negb (bool_decide (s = []))
            && forallb (λ d, negb (bool_decide (d = 46))) s) eqn:Hm.
  - intros [= <-].
    apply andb_true_iff in Hm as [Hm Hdot].
    apply andb_true_iff in Hm as [Hc Hne].
    apply bool_decide_eq_true in Hc as ->.
    apply negb_true_iff, bool_decide_eq_false in Hne.
    split; [done |]. split; [by apply forallb_no_dot_spec |]. by exists [].
  - intros H. destruct (IH H) as (? & ? & stem & ->).
    split; [done |]. split; [done |]. by exists (c :: stem).
Qed.

(** X2: when the name ends with a dot followed by a non-empty, dot-free
    suffix, [getExt] returns that suffix in lower case, whatever precedes the
    dot (other dots included). *)
Theorem getExt_after_last_dot (E : Engine) (stem e : jsstring) :
  e ≠ [] → dotFree e →
  getExt E (Some (stem ++ js "." ++ e)) = toLowerCase E e.
Proof.
  intros Hne Hdot. unfold getExt. simpl.
  by rewrite execExt_after_last_dot.
Qed.

Lemma getExt_after_last_dot_witness :
  getExt asciiEngine (Some (js "my.photo.v2" ++ js "." ++ js "JpEg"))
  = toLowerCase asciiEngine (js "JpEg").
Proof.
  apply (getExt_after_last_dot asciiEngine (js "my.photo.v2") (js "JpEg")).
  - discriminate.
  - repeat constructor; discriminate.
Defined.

(** X3: [getExt] falls back to [jpg] when the name is absent, when it holds
    no dot, and when its last unit is a dot. *)
Theorem getExt_fallback (E : Engine) (s t : jsstring) :
  dotFree s →
  getExt E None = js "jpg"
  ∧ getExt E (Some s) = js "jpg"
  ∧ getExt E (Some (t ++ js ".")) = js "jpg".
Proof.
  intros Hs. unfold getExt. simpl.
  by rewrite (execExt_dot_free s Hs), execExt_trailing_dot.
Qed.

Lemma getExt_fallback_witness :
  getExt asciiEngine None = js "jpg"
  ∧ getExt asciiEngine (Some (js "README")) = js "jpg"
  ∧ getExt asciiEngine (Some (js "archive.tar" ++ js ".")) = js "jpg".
Proof.
  apply (getExt_fallback asciiEngine (js "README") (js "archive.tar")).
  repeat constructor; discriminate.
Defined.

Lemma asciiLower_shape c :
  isAscii c = true → c ≠ 46 →
  isAscii (asciiLower c) = true ∧ asciiLower c ≠ 46
  ∧ ¬ (65 ≤ asciiLower c ≤ 90).
Proof.
  unfold isAscii, asciiLower. rewrite bool_decide_eq_true. intros Hc Hd.
  destruct (decide (65 ≤ c ≤ 90)) as [H | H];
    [rewrite !(bool_decide_eq_true_2 _ H)
    | rewrite !(bool_decide_eq_false_2 _ H)];
    rewrite bool_decide_eq_true; lia.
Qed.

(** X4: for a name made of ASCII units, the extension [getExt] returns is
    never empty, holds no dot and no capital letter, and is ASCII. *)
Theorem getExt_ascii_shape (E : Engine) (s : jsstring) :
  asciiString s →
  getExt E (Some s) ≠ []
  ∧ dotFree (getExt E (Some s))
  ∧ Forall (λ c, ¬ (65 ≤ c ≤ 90)) (getExt E (Some s))
  ∧ asciiString (getExt E (Some s)).
Proof.
  intros Hs. unfold getExt. change (default [] (Some s)) with s.
  destruct (execExt s) as [e |] eqn:He.
  2: { change (toLowerCase E (default (js "jpg") None))
         with ([106; 112; 103] : list N).
       split; [done |].
       unfold dotFree, asciiString. rewrite !Forall_cons, !Forall_nil.
       repeat split; (done || lia). }
  destruct (execExt_Some s e He) as (Hne & Hdot & stem & ->).
  assert (asciiString e) as Hascii.
  { apply Forall_app in Hs as [_ Hs]. by apply Forall_cons in Hs as [_ Hs]. }
  change (default (js "jpg") (Some e)) with e. unfold toLowerCase.
  assert (forallb isAscii e = true) as ->.
  { clear -Hascii. induction Hascii as [| c e Hc _ IH]; simpl; [done |].
    by rewrite Hc. }
  split; [by destruct e |].
  unfold dotFree, asciiString in *.
  clear -Hdot Hascii.
  induction Hascii as [| c e Hc _ IH]; [by repeat split; constructor |].
  apply Forall_cons in Hdot as [Hd Hdot].
  destruct (IH Hdot) as (IH1 & IH2 & IH3).
  destruct (asciiLower_shape c Hc Hd) as (? & ? & ?).
  rewrite fmap_cons. repeat split; by constructor.
Qed.

Lemma getExt_ascii_shape_witness :
  getExt asciiEngine (Some (js "Front View.PNG")) ≠ []
  ∧ dotFree (getExt asciiEngine (Some (js "Front View.PNG")))
  ∧ Forall (λ c, ¬ (65 ≤ c ≤ 90)) (getExt asciiEngine (Some (js "Front View.PNG")))
  ∧ asciiString (getExt asciiEngine (Some (js "Front View.PNG"))).
Proof.
  apply (getExt_ascii_shape asciiEngine (js "Front View.PNG")).
  repeat constructor.
Defined.

Lemma typeToken_length i : length (typeToken i) = 4%nat.
Proof. by destruct i. Qed.

Lemma typeToken_inj i j :
  (i ≤ 99)%nat → (j ≤ 99)%nat → typeToken i = typeToken j → i = j.
Proof.
  intros Hi Hj H. destruct i as [| i], j as [| j]; [done | | |].
  - apply (f_equal head) in H. vm_compute in H. discriminate H.
  - apply (f_equal head) in H. vm_compute in H. discriminate H.
  - change (js "PT" ++ zeroPad2 (S i) = js "PT" ++ zeroPad2 (S j)) in H.
    apply app_inv_head in H.
    generalize dependent (S i). generalize dependent (S j). clear i j.
    intros m _ n _ H. unfold zeroPad2 in H.
    injection H as H1 H2.
    apply N.add_cancel_l, Nat2N.inj in H1, H2.
    change (n / 10 = m / 10)%nat in H1. change (n mod 10 = m mod 10)%nat in H2.
    rewrite (Nat.div_mod_eq n 10), (Nat.div_mod_eq m 10).
    by rewrite H1, H2.
Qed.

Lemma typeToken_filename i : (i ≤ 99)%nat → filenameString (typeToken i).
Proof.
  intros Hi. destruct i as [| i]; [by repeat constructor |].
  change (filenameString (js "PT" ++ zeroPad2 (S i))).
  generalize dependent (S i). clear i. intros n Hn.
  assert (n / 10 < 10)%nat by (apply Nat.Div0.div_lt_upper_bound; lia).
  pose proof (Nat.mod_upper_bound n 10 ltac:(lia)).
  apply Forall_app. split; [by repeat constructor |].
  unfold zeroPad2.
  repeat constructor; unfold isFilenameUnit; apply bool_decide_eq_true; lia.
Qed.

(** X5: over the positions 0..99 the type token has four units and
    determines the position: two different positions never get the same
    token. *)
Theorem imageTypeForIndex_injective (i j : nat) :
  (i ≤ 99)%nat → (j ≤ 99)%nat →
  length (imageTypeForIndex i) = 4%nat
  ∧ (imageTypeForIndex i = imageTypeForIndex j → i = j).
Proof.
  intros Hi Hj. rewrite !imageTypeForIndex_two_digits by done.
  split; [apply typeToken_length | by apply typeToken_inj].
Qed.

Lemma imageTypeForIndex_injective_witness :
  length (imageTypeForIndex 3) = 4%nat
  ∧ (imageTypeForIndex 3 = imageTypeForIndex 30 → 3%nat = 30%nat).
Proof. apply (imageTypeForIndex_injective 3 30); lia. Defined.

(** The part of a filename before its extension. *)
Lemma buildFilename_stem E a i item :
  buildFilename E a i item
  = (normalize E (product a) ++ js "_" ++ date a ++ js "_"
     ++ normalize E (diff a) ++ js "_")
    ++ imageTypeForIndex i ++ js "." ++ getExt E (Some (name (file item))).
Proof.
  rewrite buildFilename_as_format. unfold filenameFormat.
  by rewrite <- !app_assoc.
Qed.

(** X6: when the date is made of units of [[A-Z0-9_]] (six digits, say) and
    the position is at most 99, the filename is a stem over [[A-Z0-9_]], a
    dot, and the extension of the original name. *)
Theorem buildFilename_stem_safe (E : Engine) (a : App) (i : nat)
    (item : Entry) :
  filenameString (date a) → (i ≤ 99)%nat →
  ∃ stem,
    buildFilename E a i item
    = stem ++ js "." ++ getExt E (Some (name (file item)))
    ∧ Forall (λ c, 65 ≤ c ≤ 90 ∨ 48 ≤ c ≤ 57 ∨ c = 95) stem.
Proof.
  intros Hdate Hi.
  exists ((normalize E (product a) ++ js "_" ++ date a ++ js "_"
           ++ normalize E (diff a) ++ js "_") ++ imageTypeForIndex i).
  split; [by rewrite buildFilename_stem, <- !app_assoc |].
  eapply Forall_impl;
    [| intros c Hc; apply bool_decide_eq_true in Hc; exact Hc].
  rewrite imageTypeForIndex_two_digits by done.
  assert (filenameString (js "_")) as Hus by (by repeat constructor).
  unfold filenameString in *. rewrite !Forall_app.
  split_and!; try done; try apply normalize_filename.
  by apply typeToken_filename.
Qed.

Lemma buildFilename_stem_safe_witness :
  ∃ stem,
    buildFilename asciiEngine twoFilledApp 1 (sampleEntry "b" "side.png")
    = stem ++ js "."
      ++ getExt asciiEngine (Some (name (file (sampleEntry "b" "side.png"))))
    ∧ Forall (λ c, 65 ≤ c ≤ 90 ∨ 48 ≤ c ≤ 57 ∨ c = 95) stem.
Proof.
  apply (buildFilename_stem_safe asciiEngine twoFilledApp 1
           (sampleEntry "b" "side.png")).
  - repeat constructor.
  - lia.
Defined.

Lemma buildFilename_inj E a i j item item' :
  (i ≤ 99)%nat → (j ≤ 99)%nat →
  buildFilename E a i item = buildFilename E a j item' → i = j.
Proof.
  intros Hi Hj H. rewrite !buildFilename_stem in H.
  apply app_inv_head in H.
  apply (f_equal (take 4)) in H.
  rewrite !take_app_length' in H
    by (by rewrite imageTypeForIndex_two_digits, typeToken_length).
  rewrite !imageTypeForIndex_two_digits in H by done.
  by apply typeToken_inj.
Qed.

Lemma computeFinalNames_NoDup E a :
  (length (filled (files a)) ≤ 100)%nat → NoDup (computeFinalNames E a).
Proof.
  intros Hlen. apply NoDup_alt. intros i j x Hi Hj.
  unfold computeFinalNames in Hi, Hj.
  apply list_lookup_imap_Some in Hi as (item & Hi & ->).
  apply list_lookup_imap_Some in Hj as (item' & Hj & Hx).
  apply lookup_lt_Some in Hi, Hj.
  apply (buildFilename_inj E a i j item item'); [lia | lia | done].
Qed.

(** X7: the preview lists one name per filled slot, and with at most 100
    filled slots (the store has 10) no two of these names are equal. *)
Theorem computeFinalNames_distinct (E : Engine) (a : App) :
  (length (filled (files a)) ≤ 100)%nat →
  length (computeFinalNames E a) = length (filled (files a))
  ∧ NoDup (computeFinalNames E a).
Proof.
  intros Hlen. split; [apply length_imap | by apply computeFinalNames_NoDup].
Qed.

Lemma computeFinalNames_distinct_witness :
  length (computeFinalNames asciiEngine twoFilledApp)
  = length (filled (files twoFilledApp))
  ∧ NoDup (computeFinalNames asciiEngine twoFilledApp).
Proof.
  apply (computeFinalNames_distinct asciiEngine twoFilledApp). simpl. lia.
Defined.

(** X8: when every read of an archive export completes once, in whatever
    order, [zip.file] is called once per filled slot: up to their order the
    calls are the pairs of the name the preview shows for a position and of
    the bytes of the file at that position; with at most 100 filled slots
    no two calls pass the same path. *)
Theorem zipFileCalls_once_per_slot (B : Browser) (a : App) :
  (length (filled (files a)) ≤ 100)%nat →
  readOrder B (tick a) (length (filled (files a)))
  ≡ₚ seq 0 (length (filled (files a))) →
  zipFileCalls B a
  ≡ₚ imap (λ i item, (buildFilename (engine B) a i item, bytes (file item)))
       (filled (files a))
  ∧ fst <$> zipFileCalls B a ≡ₚ computeFinalNames (engine B) a
  ∧ length (zipFileCalls B a) = length (filled (files a))
  ∧ NoDup (fst <$> zipFileCalls B a).
Proof.
  intros Hlen Hperm.
  pose proof (zipFileCalls_permutation B a Hperm) as Hcalls.
  assert (fst <$> zipFileCalls B a ≡ₚ computeFinalNames (engine B) a) as Hfst.
  { rewrite Hcalls. unfold computeFinalNames. by rewrite fmap_imap. }
  split; [done |]. split; [done |]. split.
  - by rewrite Hcalls, length_imap.
  - rewrite Hfst. by apply computeFinalNames_NoDup.
Qed.

Lemma zipFileCalls_once_per_slot_witness :
  zipFileCalls stubbornBrowser twoFilledApp
  ≡ₚ imap (λ i item, (buildFilename (engine stubbornBrowser) twoFilledApp i item,
                      bytes (file item)))
       (filled (files twoFilledApp))
  ∧ fst <$> zipFileCalls stubbornBrowser twoFilledApp
    ≡ₚ computeFinalNames (engine stubbornBrowser) twoFilledApp
  ∧ length (zipFileCalls stubbornBrowser twoFilledApp)
    = length (filled (files twoFilledApp))
  ∧ NoDup (fst <$> zipFileCalls stubbornBrowser twoFilledApp).
Proof.
  apply (zipFileCalls_once_per_slot stubbornBrowser twoFilledApp).
  - simpl. lia.
  - apply Permutation_swap.
Defined.

(** ** [addFiles], [handleRemove], [swapFiles] *)

Lemma addFiles_untargeted_fillEmpty B t fileList (prev : list Slot) :
  addFiles B t fileList None prev
  = fillEmpty prev
      (imap (fileToPreview B t)
         (take 10 (filter (λ f, isImageLike f) fileList))).
Proof.
  unfold addFiles.
  destruct (take 10 (filter (λ f, isImageLike f) fileList)) as [| f fs];
    [by rewrite fillEmpty_nil_r |].
  rewrite fillLoop_spec by lia. by rewrite !drop_0.
Qed.

(** X9: with a target slot of the grid, [addFiles] puts the preview entry of
    the first image-like candidate into that slot, whether the slot was
    empty or occupied, and changes no other slot; the other candidates are
    ignored. *)
Theorem addFiles_targeted (B : Browser) (t : nat) (fileList : list File)
    (target : nat) (prev : list Slot) (f0 : File) :
  (target < length prev)%nat →
  head (filter (λ f, isImageLike f) fileList) = Some f0 →
  addFiles B t fileList (Some target) prev
  = <[target := Some (fileToPreview B t 0 f0)]> prev.
Proof.
  intros Htarget Hhead. apply head_Some in Hhead as [rest Hrest].
  unfold addFiles. rewrite Hrest. simpl.
  by rewrite arraySet_in_range.
Qed.

Lemma addFiles_targeted_witness :
  addFiles sampleBrowser 0 [imageFile "notes.txt"; imageFile "a.jpg"]
    (Some 5%nat)
    (slots2and5 (sampleEntry "a" "front.JPG") (sampleEntry "b" "side.png"))
  = <[5%nat := Some (fileToPreview sampleBrowser 0 0 (imageFile "notes.txt"))]>
      (slots2and5 (sampleEntry "a" "front.JPG") (sampleEntry "b" "side.png")).
Proof.
  apply (addFiles_targeted sampleBrowser 0
           [imageFile "notes.txt"; imageFile "a.jpg"] 5
           (slots2and5 (sampleEntry "a" "front.JPG") (sampleEntry "b" "side.png"))
           (imageFile "notes.txt")).
  - simpl. lia.
  - reflexivity.
Defined.

(** X10: when no candidate is image-like, [addFiles] leaves the store as it
    is, with or without a target and whatever the target. *)
Theorem addFiles_no_image (B : Browser) (t : nat) (fileList : list File)
    (targetIndex : option nat) (prev : list Slot) :
  Forall (λ f, isImageLike f = false) fileList →
  addFiles B t fileList targetIndex prev = prev.
Proof.
  intros Hnone. unfold addFiles.
  assert (filter (λ f, isImageLike f) fileList = []) as ->; [| done].
  induction Hnone as [| f l Hf _ IH]; [done |].
  rewrite filter_cons_False; [done |]. rewrite Hf. by intros [].
Qed.

Lemma addFiles_no_image_witness :
  addFiles sampleBrowser 0
    [{| name := js "notes.txt"; type := js "text/plain"; bytes := [] |};
     {| name := js "PHOTO.JPG"; type := []; bytes := [] |}]
    (Some 12%nat) (files initialApp)
  = files initialApp.
Proof.
  apply (addFiles_no_image sampleBrowser 0
           [{| name := js "notes.txt"; type := js "text/plain"; bytes := [] |};
            {| name := js "PHOTO.JPG"; type := []; bytes := [] |}]
           (Some 12%nat) (files initialApp)).
  repeat constructor.
Defined.

Lemma emptyCount_cons (s : Slot) (fs : list Slot) :
  emptyCount (s :: fs)
  = ((if s is None then 1 else 0) + emptyCount fs)%nat.
Proof.
  unfold emptyCount. rewrite filter_cons. destruct s; by case_decide.
Qed.

Lemma fillEmpty_filled_count (fs : list Slot) batch :
  length (filled (fillEmpty fs batch))
  = (length (filled fs) + min (length batch) (emptyCount fs))%nat.
Proof.
  revert batch. induction fs as [| s fs IH]; intros batch.
  - simpl. unfold emptyCount. simpl. lia.
  - destruct batch as [| p batch]; [rewrite fillEmpty_nil_r; simpl; lia |].
    rewrite emptyCount_cons. destruct s as [e |]; simpl; rewrite IH; simpl; lia.
Qed.

Lemma fillEmpty_filled_sublist (fs : list Slot) batch :
  filled fs `sublist_of` filled (fillEmpty fs batch).
Proof.
  revert batch. induction fs as [| s fs IH]; intros batch; [done |].
  destruct batch as [| p batch]; [by rewrite fillEmpty_nil_r |].
  destruct s as [e |]; simpl.
  - apply sublist_skip, IH.
  - apply sublist_cons, IH.
Qed.

(** X11: without a target, [addFiles] adds as many entries as there are
    accepted files, up to the number of empty slots, and keeps the entries
    already in the store in their order. *)
Theorem addFiles_filled_count (B : Browser) (t : nat) (fileList : list File)
    (prev : list Slot) :
  let accepted := take 10 (filter (λ f, isImageLike f) fileList) in
  let next := addFiles B t fileList None prev in
  length (filled next)
  = (length (filled prev) + min (length accepted) (emptyCount prev))%nat
  ∧ filled prev `sublist_of` filled next.
Proof.
  intros accepted next. unfold next.
  rewrite addFiles_untargeted_fillEmpty.
  split; [| apply fillEmpty_filled_sublist].
  by rewrite fillEmpty_filled_count, length_imap.
Qed.

Lemma fillEmpty_full (fs : list Slot) batch :
  Forall (λ s : Slot, s ≠ None) fs → fillEmpty fs batch = fs.
Proof.
  intros H. revert batch. induction H as [| s fs Hs _ IH]; intros batch;
    [done |].
  destruct batch as [| p batch]; [by rewrite fillEmpty_nil_r |].
  destruct s as [e |]; [| done]. simpl. by rewrite IH.
Qed.

(** X12: on a store without an empty slot, [addFiles] without a target
    changes nothing: every accepted file is dropped. *)
Theorem addFiles_full_store (B : Browser) (t : nat) (fileList : list File)
    (prev : list Slot) :
  Forall (λ s : Slot, s ≠ None) prev →
  addFiles B t fileList None prev = prev.
Proof.
  intros H. rewrite addFiles_untargeted_fillEmpty. by apply fillEmpty_full.
Qed.

Lemma addFiles_full_store_witness :
  addFiles sampleBrowser 0 [imageFile "late.jpg"] None
    (replicate 10 (Some (sampleEntry "a" "front.JPG")))
  = replicate 10 (Some (sampleEntry "a" "front.JPG")).
Proof.
  apply (addFiles_full_store sampleBrowser 0 [imageFile "late.jpg"]
           (replicate 10 (Some (sampleEntry "a" "front.JPG")))).
  repeat constructor; discriminate.
Defined.

Lemma handleRemove_insert index (fs : list Slot) :
  handleRemove index fs = <[index := None]> fs.
Proof.
  apply list_eq. intros i. unfold handleRemove.
  rewrite list_lookup_imap, list_lookup_insert.
  destruct (fs !! i) as [v |] eqn:Hi; simpl.
  - apply lookup_lt_Some in Hi.
    case_bool_decide; case_decide; try done; lia.
  - apply lookup_ge_None in Hi. case_decide; [lia | done].
Qed.

(** X13: [handleRemove] empties the slot of the given index and nothing
    else: the store keeps its length, and an index outside the store or the
    index of an empty slot leaves the store unchanged. *)
Theorem handleRemove_point_update (index : nat) (fs : list Slot) :
  handleRemove index fs = <[index := None]> fs
  ∧ length (handleRemove index fs) = length fs
  ∧ ((length fs ≤ index)%nat → handleRemove index fs = fs)
  ∧ (fs !! index = Some None → handleRemove index fs = fs).
Proof.
  rewrite handleRemove_insert. split; [done |].
  split; [apply length_insert |].
  split; [apply list_insert_ge | apply list_insert_id].
Qed.

Lemma delete_middle {A} (l1 l2 : list A) x :
  delete (length l1) (l1 ++ x :: l2) = l1 ++ l2.
Proof. induction l1 as [| y l1 IH]; simpl; [done | by rewrite IH]. Qed.

(** X14: removing an occupied slot takes its entry out of the filled
    sequence and leaves the others in order, so every later entry moves up
    one position (and is named accordingly). *)
Theorem handleRemove_filled (k : nat) (fs : list Slot) (e : Entry) :
  fs !! k = Some (Some e) →
  filled (handleRemove k fs) = delete (filledRank fs k) (filled fs).
Proof.
  intros Hk. rewrite handleRemove_insert.
  rewrite insert_take_drop by (by apply lookup_lt_Some in Hk).
  replace (filled fs) with (filled (take k fs ++ Some e :: drop (S k) fs))
    by (f_equal; by apply take_drop_middle).
  rewrite !filled_app. simpl. unfold filledRank. by rewrite delete_middle.
Qed.

Lemma handleRemove_filled_witness :
  filled (handleRemove 2
            (slots2and5 (sampleEntry "a" "front.JPG")
               (sampleEntry "b" "side.png")))
  = delete
      (filledRank (slots2and5 (sampleEntry "a" "front.JPG")
                     (sampleEntry "b" "side.png")) 2)
      (filled (slots2and5 (sampleEntry "a" "front.JPG")
                 (sampleEntry "b" "side.png"))).
Proof.
  apply (handleRemove_filled 2 _ (sampleEntry "a" "front.JPG")). reflexivity.
Defined.

Lemma transpose_involutive x y i : transpose x y (transpose x y i) = i.
Proof. unfold transpose. repeat case_bool_decide; congruence. Qed.

Lemma swapFiles_length from to (fs : list Slot) :
  (from < length fs)%nat → (to < length fs)%nat →
  length (swapFiles (Some from) to fs) = length fs.
Proof.
  intros Hf Ht. unfold swapFiles. case_bool_decide; [done |].
  rewrite (arraySet_in_range fs) by done.
  rewrite arraySet_in_range by (by rewrite length_insert).
  by rewrite !length_insert.
Qed.

Lemma swapFiles_lookup from to (fs : list Slot) i :
  (from < length fs)%nat → (to < length fs)%nat →
  swapFiles (Some from) to fs !! i = fs !! transpose from to i.
Proof.
  intros Hf Ht. unfold swapFiles. case_bool_decide as Heq.
  - subst to. unfold transpose. by repeat case_bool_decide; subst.
  - by apply swap_lookup.
Qed.

(** X15: within the store, [swapFiles] exchanges the contents of the two
    slots and touches no other slot; the length is kept, and the order of
    the two indices does not matter. *)
Theorem swapFiles_exchange (from to : nat) (fs : list Slot) :
  (from < length fs)%nat → (to < length fs)%nat →
  swapFiles (Some from) to fs !! from = fs !! to
  ∧ swapFiles (Some from) to fs !! to = fs !! from
  ∧ (∀ i, i ≠ from → i ≠ to → swapFiles (Some from) to fs !! i = fs !! i)
  ∧ length (swapFiles (Some from) to fs) = length fs
  ∧ swapFiles (Some from) to fs = swapFiles (Some to) from fs.
Proof.
  intros Hf Ht.
  split; [| split; [| split; [| split]]].
  - rewrite swapFiles_lookup by done. unfold transpose.
    by rewrite bool_decide_eq_true_2.
  - rewrite swapFiles_lookup by done. unfold transpose.
    case_bool_decide; [by subst |]. by rewrite bool_decide_eq_true_2.
  - intros i Hif Hit. rewrite swapFiles_lookup by done. unfold transpose.
    by rewrite !bool_decide_eq_false_2.
  - by apply swapFiles_length.
  - apply list_eq. intros i. rewrite !swapFiles_lookup by done.
    f_equal. unfold transpose. repeat case_bool_decide; congruence.
Qed.

Lemma swapFiles_exchange_witness :
  let fs := slots2and5 (sampleEntry "a" "front.JPG") (sampleEntry "b" "side.png") in
  swapFiles (Some 2%nat) 7 fs !! 2%nat = fs !! 7%nat
  ∧ swapFiles (Some 2%nat) 7 fs !! 7%nat = fs !! 2%nat
  ∧ (∀ i, i ≠ 2%nat → i ≠ 7%nat → swapFiles (Some 2%nat) 7 fs !! i = fs !! i)
  ∧ length (swapFiles (Some 2%nat) 7 fs) = length fs
  ∧ swapFiles (Some 2%nat) 7 fs = swapFiles (Some 7%nat) 2 fs.
Proof.
  apply (swapFiles_exchange 2 7
           (slots2and5 (sampleEntry "a" "front.JPG")
              (sampleEntry "b" "side.png"))); simpl; lia.
Defined.

(** X16: within the store, swapping the same two slots twice restores the
    arrangement. *)
Theorem swapFiles_involutive (from to : nat) (fs : list Slot) :
  (from < length fs)%nat → (to < length fs)%nat →
  swapFiles (Some from) to (swapFiles (Some from) to fs) = fs.
Proof.
  intros Hf Ht. apply list_eq. intros i.
  rewrite swapFiles_lookup by (by rewrite swapFiles_length).
  rewrite swapFiles_lookup by done.
  by rewrite transpose_involutive.
Qed.

Lemma swapFiles_involutive_witness :
  swapFiles (Some 2%nat) 7
    (swapFiles (Some 2%nat) 7
       (slots2and5 (sampleEntry "a" "front.JPG") (sampleEntry "b" "side.png")))
  = slots2and5 (sampleEntry "a" "front.JPG") (sampleEntry "b" "side.png").
Proof.
  apply (swapFiles_involutive 2 7
           (slots2and5 (sampleEntry "a" "front.JPG")
              (sampleEntry "b" "side.png"))); simpl; lia.
Defined.

(** X17: within the store, [swapFiles] only rearranges: the slots after the
    swap are a permutation of the slots before, and so are the entries of
    the filled sequence; no entry is lost or duplicated. *)
Theorem swapFiles_permutation (from to : nat) (fs : list Slot) :
  (from < length fs)%nat → (to < length fs)%nat →
  swapFiles (Some from) to fs ≡ₚ fs
  ∧ filled (swapFiles (Some from) to fs) ≡ₚ filled fs.
Proof.
  intros Hf Ht.
  assert (swapFiles (Some from) to fs ≡ₚ fs) as Hperm.
  { apply Permutation_inj. split; [by apply swapFiles_length |].
    exists (transpose from to). split.
    - intros i j. apply transpose_inj.
    - intros i. by apply swapFiles_lookup. }
  split; [done |]. unfold filled. by rewrite Hperm.
Qed.

Lemma swapFiles_permutation_witness :
  let fs := slots2and5 (sampleEntry "a" "front.JPG") (sampleEntry "b" "side.png") in
  swapFiles (Some 5%nat) 2 fs ≡ₚ fs
  ∧ filled (swapFiles (Some 5%nat) 2 fs) ≡ₚ filled fs.
Proof.
  apply (swapFiles_permutation 5 2
           (slots2and5 (sampleEntry "a" "front.JPG")
              (sampleEntry "b" "side.png"))); simpl; lia.
Defined.

(** X18: ingesting one image-like file into a store whose first empty slot
    is [k], then removing slot [k], gives the store back. *)
Theorem add_then_remove (B : Browser) (t : nat) (f : File) (k : nat)
    (prev : list Slot) :
  isImageLike f = true →
  prev !! k = Some None → emptyRank prev k = 0%nat →
  handleRemove k (addFiles B t [f] None prev) = prev.
Proof.
  intros Hf Hk Hrank.
  rewrite addFiles_untargeted_fillEmpty, handleRemove_insert.
  set (batch := imap (fileToPreview B t)
                  (take 10 (filter (λ f0, isImageLike f0) [f]))).
  assert (length batch = 1%nat) as Hbatch.
  { unfold batch. rewrite filter_cons_True by (by rewrite Hf). done. }
  apply list_eq. intros i.
  destruct (decide (i = k)) as [-> | Hik].
  - rewrite list_lookup_insert_eq, Hk; [done |].
    rewrite fillEmpty_length. by apply lookup_lt_Some in Hk.
  - rewrite list_lookup_insert_ne by done.
    destruct (prev !! i) as [[e |] |] eqn:Hi.
    + by apply fillEmpty_occupied.
    + rewrite (fillEmpty_empty _ _ _ Hi).
      destruct (emptyRank prev i) as [| r] eqn:Hr.
      * destruct Hik. apply (emptyRank_inj prev); congruence.
      * f_equal. apply lookup_ge_None. lia.
    + apply lookup_ge_None. rewrite fillEmpty_length.
      by apply lookup_ge_None in Hi.
Qed.

Lemma add_then_remove_witness :
  handleRemove 0
    (addFiles sampleBrowser 0 [imageFile "a.jpg"] None
       (slots2and5 (sampleEntry "a" "front.JPG") (sampleEntry "b" "side.png")))
  = slots2and5 (sampleEntry "a" "front.JPG") (sampleEntry "b" "side.png").
Proof.
  apply (add_then_remove sampleBrowser 0 (imageFile "a.jpg") 0
           (slots2and5 (sampleEntry "a" "front.JPG")
              (sampleEntry "b" "side.png"))); reflexivity.
Defined.

(** ** Previews *)

Lemma data_url_not_blob (r : jsstring) :
  startsWith (js "data:") r = true → startsWith (js "blob:") r = false.
Proof.
  unfold startsWith. rewrite bool_decide_eq_true, bool_decide_eq_false.
  change (length (js "data:")) with 5%nat.
  change (length (js "blob:")) with 5%nat.
  intros ->. discriminate.
Qed.

Lemma fileToPreview_consistent B t k f :
  previewConsistent (fileToPreview B t k f)
  ∧ startsWith (js "blob:") (url (fileToPreview B t k f)) = false.
Proof.
  unfold fileToPreview, previewConsistent.
  destruct (readerResult B t k) as [r |].
  - destruct (startsWith (js "data:") r) eqn:Hr.
    + split; [right; split; [reflexivity | exact Hr] |].
      exact (data_url_not_blob r Hr).
    + split; [left; split; reflexivity | reflexivity].
  - split; [left; split; reflexivity | reflexivity].
Qed.

Lemma arrayGet_Forall (Q : Slot → Prop) (fs : list Slot) i :
  Q None → Forall Q fs → Q (arrayGet fs i).
Proof.
  intros HN H. unfold arrayGet. destruct (fs !! i) as [v |] eqn:Hi; [| done].
  by apply (Forall_lookup_1 Q fs i v).
Qed.

Lemma arraySet_Forall (Q : Slot → Prop) (fs : list Slot) i v :
  Q None → Q v → Forall Q fs → Forall Q (arraySet fs i v).
Proof.
  intros HN Hv H. unfold arraySet. case_match.
  - by apply Forall_insert.
  - rewrite !Forall_app. split; [done |]. split.
    + by apply Forall_replicate.
    + by repeat constructor.
Qed.

Lemma fillEmpty_Forall (Q : Slot → Prop) (fs : list Slot) batch :
  Forall Q fs → Forall (λ p, Q (Some p)) batch → Forall Q (fillEmpty fs batch).
Proof.
  intros Hfs. revert batch.
  induction Hfs as [| s fs Hs Hfs IH]; intros batch Hb; [by destruct batch |].
  destruct Hb as [| p batch Hp Hb]; [by rewrite fillEmpty_nil_r; constructor |].
  destruct s as [e |]; simpl; constructor; auto.
Qed.

Lemma addFiles_fromPreview B t fileList targetIndex (fs : list Slot) :
  Forall (fromPreview B) fs →
  Forall (fromPreview B) (addFiles B t fileList targetIndex fs).
Proof.
  intros H. destruct targetIndex as [target |].
  - unfold addFiles.
    destruct (take 10 (filter (λ f, isImageLike f) fileList)) as [| f imgs];
      [done |].
    apply arraySet_Forall; [done | | done]. simpl. by exists t, 0%nat, f.
  - rewrite addFiles_untargeted_fillEmpty. apply fillEmpty_Forall; [done |].
    apply Forall_lookup. intros i p Hp.
    apply list_lookup_imap_Some in Hp as (f & _ & ->). by exists t, i, f.
Qed.

Lemma handle_files_fromPreview B op a :
  Forall (fromPreview B) (files a) →
  Forall (fromPreview B) (files (handle B op a)).
Proof.
  intros H. destruct op; simpl; try done.
  - by apply addFiles_fromPreview.
  - rewrite handleRemove_insert. by apply Forall_insert.
  - unfold swapFiles. destruct from as [from |]; [| done].
    case_bool_decide; [done |].
    repeat apply arraySet_Forall; try done; by apply arrayGet_Forall.
  - by repeat constructor.
  - unfold downloadZip. destruct (filled (files a)); [done |].
    by destruct (zipBuilt B (tick a)).
  - unfold downloadIndividually. destruct (filled (files a)); [done |].
    destruct (threw (individualPass B a)); [done |].
    by destruct (manual (individualPass B a)).
Qed.

Lemma run_files_fromPreview B ops a :
  Forall (fromPreview B) (files a) →
  Forall (fromPreview B) (files (run B ops a)).
Proof.
  revert a. induction ops as [| op ops IH]; intros a H; [done |].
  apply (IH (step B op a)). by apply handle_files_fromPreview.
Qed.

(** X19: after every sequence of commands, whatever their arguments, every
    entry of the store has a consistent preview: the error flag is set
    exactly when there is no preview URL, and a preview URL is a [data:]
    URL, never a [blob:] URL.  The cleanup of the effect of lines 110-119
    therefore revokes no preview URL: all it revokes are [blob:] URLs of
    pending links. *)
Theorem previews_are_data_urls (B : Browser) (ops : list Op) :
  Forall (λ e, previewConsistent e ∧ startsWith (js "blob:") (url e) = false)
    (filled (files (run B ops initialApp)))
  ∧ cleanupRevocations (run B ops initialApp)
    = filter (λ u, startsWith (js "blob:") u)
        (linkUrl <$> pendingLinks (run B ops initialApp)).
Proof.
  assert (Forall (fromPreview B) (files (run B ops initialApp))) as H.
  { apply run_files_fromPreview. by apply Forall_replicate. }
  assert (Forall (λ e, previewConsistent e
                       ∧ startsWith (js "blob:") (url e) = false)
            (filled (files (run B ops initialApp)))) as Hfilled.
  { induction H as [| [e |] fs He _ IH]; simpl; [done | | done].
    constructor; [| done]. destruct He as (t & k & f & ->).
    apply fileToPreview_consistent. }
  split; [done |]. unfold cleanupRevocations.
  assert (filter (λ u, startsWith (js "blob:") u)
            (url <$> filled (files (run B ops initialApp))) = []) as ->; [| done].
  induction Hfilled as [| e l [_ He] _ IH]; [done |].
  rewrite fmap_cons, filter_cons_False; [done |]. rewrite He. by intros [].
Qed.

(** ** Export *)

Lemma filter_filter_complement (name' : jsstring) (links : list Link) :
  filter (λ l, linkName l = name') (filter (λ l, linkName l ≠ name') links)
  = [].
Proof.
  induction links as [| l links IH]; [done |].
  destruct (decide (linkName l = name')) as [Heq | Hne].
  - by rewrite (filter_cons_False (λ l, linkName l ≠ name')) by naive_solver.
  - rewrite (filter_cons_True (λ l, linkName l ≠ name')) by done.
    by rewrite filter_cons_False.
Qed.

(** X20: on a store with a filled slot, archive export either builds the
    archive, and then the pending list starts with the new archive link,
    holds exactly one link of that name, and the status tells whether the
    download was triggered or blocked; or it fails, and then the status is
    the error status and the pending list is unchanged.  The slots are
    untouched in both cases. *)
Theorem downloadZip_outcome (B : Browser) (a : App) :
  filled (files a) ≠ [] →
  files (downloadZip B a) = files a
  ∧ (zipBuilt B (tick a) = true →
       head (pendingLinks (downloadZip B a))
       = Some {| linkName := archiveName (engine B) a;
                 linkUrl := objectURL B (tick a) 0 |}
       ∧ length (filter (λ l, linkName l = archiveName (engine B) a)
                   (pendingLinks (downloadZip B a))) = 1%nat
       ∧ status (downloadZip B a)
         = if downloadOk B (tick a) then ZipTriggered else ZipBlocked)
  ∧ (zipBuilt B (tick a) = false →
       pendingLinks (downloadZip B a) = pendingLinks a
       ∧ status (downloadZip B a) = ZipError).
Proof.
  intros Hne. unfold downloadZip.
  destruct (filled (files a)) as [| e l]; [done |].
  destruct (zipBuilt B (tick a)); simpl.
  - split; [done |]. split; [| done]. intros _. split; [done |].
    split; [| done].
    rewrite filter_cons_True by done.
    by rewrite filter_filter_complement.
  - split; [done |]. by split.
Qed.

Lemma downloadZip_outcome_witness :
  files (downloadZip sampleBrowser afterFirstArchive) = files afterFirstArchive
  ∧ (zipBuilt sampleBrowser (tick afterFirstArchive) = true →
       head (pendingLinks (downloadZip sampleBrowser afterFirstArchive))
       = Some {| linkName := archiveName (engine sampleBrowser) afterFirstArchive;
                 linkUrl := objectURL sampleBrowser (tick afterFirstArchive) 0 |}
       ∧ length (filter (λ l, linkName l
                              = archiveName (engine sampleBrowser)
                                  afterFirstArchive)
                   (pendingLinks (downloadZip sampleBrowser afterFirstArchive)))
         = 1%nat
       ∧ status (downloadZip sampleBrowser afterFirstArchive)
         = if downloadOk sampleBrowser (tick afterFirstArchive)
           then ZipTriggered else ZipBlocked)
  ∧ (zipBuilt sampleBrowser (tick afterFirstArchive) = false →
       pendingLinks (downloadZip sampleBrowser afterFirstArchive)
       = pendingLinks afterFirstArchive
       ∧ status (downloadZip sampleBrowser afterFirstArchive) = ZipError).
Proof.
  apply (downloadZip_outcome sampleBrowser afterFirstArchive). discriminate.
Defined.

Lemma step_export_empty B op a :
  filled (files a) = [] → isExport op →
  files (step B op a) = files a
  ∧ pendingLinks (step B op a) = pendingLinks a
  ∧ status (step B op a) = status a.
Proof.
  intros Hempty Hop. destruct op; try done; simpl.
  - unfold downloadZip. by rewrite Hempty.
  - unfold downloadIndividually. by rewrite Hempty.
Qed.

(** X21: while no slot is filled, the export commands do nothing, however
    often they are issued: no link is added, the status and the slots stay
    as they were. *)
Theorem exports_need_a_filled_slot (B : Browser) (ops : list Op) (a : App) :
  filled (files a) = [] → Forall isExport ops →
  files (run B ops a) = files a
  ∧ pendingLinks (run B ops a) = pendingLinks a
  ∧ status (run B ops a) = status a.
Proof.
  intros Hempty Hops. revert a Hempty.
  induction Hops as [| op ops Hop _ IH]; intros a Hempty; [done |].
  destruct (step_export_empty B op a Hempty Hop) as (Hf & Hl & Hs).
  change (run B (op :: ops) a) with (run B ops (step B op a)).
  destruct (IH (step B op a)) as (Hf' & Hl' & Hs'); [by rewrite Hf |].
  by rewrite Hf', Hl', Hs'.
Qed.

Lemma exports_need_a_filled_slot_witness :
  files (run sampleBrowser [DownloadZip; DownloadIndividually; DownloadZip]
           initialApp) = files initialApp
  ∧ pendingLinks (run sampleBrowser
                    [DownloadZip; DownloadIndividually; DownloadZip] initialApp)
    = pendingLinks initialApp
  ∧ status (run sampleBrowser [DownloadZip; DownloadIndividually; DownloadZip]
              initialApp) = status initialApp.
Proof.
  apply (exports_need_a_filled_slot sampleBrowser
           [DownloadZip; DownloadIndividually; DownloadZip] initialApp).
  - reflexivity.
  - repeat constructor.
Defined.

(** ** Tiles *)

Lemma step_control_invariant B c a :
  storeInvariant B (files a) (tick a) →
  storeInvariant B (files (step B (controlOp c) a))
    (tick (step B (controlOp c) a)).
Proof.
  intros Hinv. destruct c; simpl.
  - apply (storeInvariant_reindex B (files a) _ (tick a) (λ i, i));
      [done | done | done |].
    intros i e H. change (replicate 10 (@None Entry) !! i = Some (Some e)) in H.
    by apply lookup_replicate in H as [? _].
  - by apply storeInvariant_unchanged.
  - by apply storeInvariant_unchanged.
  - by apply storeInvariant_unchanged.
  - unfold downloadZip. destruct (filled (files a));
      [by apply storeInvariant_unchanged |].
    destruct (zipBuilt B (tick a)); by apply storeInvariant_unchanged.
  - unfold downloadIndividually. destruct (filled (files a));
      [by apply storeInvariant_unchanged |].
    destruct (threw (individualPass B a));
      [by apply storeInvariant_unchanged |].
    destruct (manual (individualPass B a)); by apply storeInvariant_unchanged.
  - by apply storeInvariant_unchanged.
Qed.

Lemma uiStep_invariant B ev u :
  neverRepeats (randomUUID B) → uiInvariant B u → uiInvariant B (uiStep B ev u).
Proof.
  intros Hfresh [Hstore Hdrag]. pose proof Hstore as (Hlen & _ & _).
  destruct ev as [picked | slotIndex picked | idx | idx dropped | idx | c];
    simpl.
  - destruct picked as [| f picked]; [by split |].
    split; [| done]. by apply (step_invariant B Hfresh).
  - destruct (Nat.ltb_spec slotIndex (length (files (app u)))); [| by split].
    destruct picked as [| f picked]; [by split |].
    split; [| done]. apply (step_invariant B Hfresh); [simpl; lia | done].
  - destruct (Nat.ltb_spec idx (length (files (app u)))); [| by split].
    destruct (arrayGet (files (app u)) idx); [| by split].
    split; [done |]. simpl. intros d [= <-]. lia.
  - destruct (Nat.ltb_spec idx (length (files (app u)))); [| by split].
    split; [| done].
    assert (slotCommandInRange (SwapFiles (dragIndex u) idx)) as Hswap.
    { simpl. destruct (dragIndex u) as [d |] eqn:Hd; [| done].
      split; [by apply Hdrag | lia]. }
    destruct dropped as [| f dropped];
      [by apply (step_invariant B Hfresh) |].
    destruct (arrayGet (files (app u)) idx);
      [by apply (step_invariant B Hfresh) |].
    apply (step_invariant B Hfresh); [simpl; lia | done].
  - destruct (Nat.ltb_spec idx (length (files (app u)))); [| by split].
    split; [| done]. by apply (step_invariant B Hfresh).
  - split; [| done]. by apply step_control_invariant.
Qed.

(** X22: identifiers never repeating, after every sequence of user events
    (picking files, picking for a slot, dragging, dropping, removing, and
    the other controls) the store has exactly 10 slots with pairwise
    distinct identifiers, and a recorded drag index is a position of the
    grid: the handlers never pass [addFiles] or [swapFiles] an index
    outside it. *)
Theorem ui_keeps_the_grid (B : Browser) (evs : list Event) :
  neverRepeats (randomUUID B) →
  length (files (app (uiRun B evs initialUi))) = 10%nat
  ∧ distinctIds (files (app (uiRun B evs initialUi)))
  ∧ ∀ d, dragIndex (uiRun B evs initialUi) = Some d → (d < 10)%nat.
Proof.
  intros Hfresh.
  assert (uiInvariant B (uiRun B evs initialUi)) as [(Hlen & Hdist & _) Hdrag].
  { assert (uiInvariant B initialUi) as Hinit.
    { split; [apply storeInvariant_initial | done]. }
    revert Hinit. generalize initialUi.
    induction evs as [| ev evs IH]; intros u Hu; [done |].
    apply (IH (uiStep B ev u)). by apply uiStep_invariant. }
  done.
Qed.

Lemma ui_keeps_the_grid_witness :
  let evs := [PickFiles [imageFile "a.jpg"; imageFile "b.png"];
              DragStart 0; Drop 7 []; DragStart 1;
              Drop 3 [imageFile "c.jpg"]; SlotPicked 9 [imageFile "d.jpg"];
              RemoveClick 7; Use ZipButton; Drop 1 []] in
  length (files (app (uiRun sampleBrowser evs initialUi))) = 10%nat
  ∧ distinctIds (files (app (uiRun sampleBrowser evs initialUi)))
  ∧ ∀ d, dragIndex (uiRun sampleBrowser evs initialUi) = Some d → (d < 10)%nat.
Proof.
  apply (ui_keeps_the_grid sampleBrowser).
  exact sampleUUID_never_repeats.
Defined.

Lemma drag_then_drop B u i j e :
  files (app u) !! i = Some (Some e) → (j < length (files (app u)))%nat →
  files (app (uiStep B (Drop j []) (uiStep B (DragStart i) u)))
  = swapFiles (Some i) j (files (app u))
  ∧ dragIndex (uiStep B (Drop j []) (uiStep B (DragStart i) u)) = None.
Proof.
  intros Hi Hj. pose proof (lookup_lt_Some _ _ _ Hi) as Hilt.
  assert (uiStep B (DragStart i) u = {| app := app u; dragIndex := Some i |})
    as ->.
  { unfold uiStep.
    by rewrite (proj2 (Nat.ltb_lt _ _) Hilt), (arrayGet_lookup _ _ _ Hi). }
  unfold uiStep. cbn [app dragIndex].
  rewrite (proj2 (Nat.ltb_lt _ _) Hj). split; reflexivity.
Qed.

(** X23: dragging an occupied tile [i] onto tile [j] swaps the two slots and
    clears the recorded drag index; dragging tile [j] back onto tile [i]
    then restores the grid. *)
Theorem drag_drop_round_trip (B : Browser) (u : Ui) (i j : nat) (e : Entry) :
  files (app u) !! i = Some (Some e) → (j < length (files (app u)))%nat →
  files (app (uiRun B [DragStart i; Drop j []] u))
  = swapFiles (Some i) j (files (app u))
  ∧ files (app (uiRun B [DragStart i; Drop j []; DragStart j; Drop i []] u))
    = files (app u)
  ∧ dragIndex (uiRun B [DragStart i; Drop j []; DragStart j; Drop i []] u)
    = None.
Proof.
  intros Hi Hj. pose proof (lookup_lt_Some _ _ _ Hi) as Hilt.
  destruct (drag_then_drop B u i j e Hi Hj) as [Hfs Hd].
  split; [exact Hfs |].
  set (u1 := uiStep B (Drop j []) (uiStep B (DragStart i) u)) in *.
  assert (files (app u1) !! j = Some (Some e)) as Hj1.
  { rewrite Hfs, swapFiles_lookup by done. unfold transpose.
    case_bool_decide; [by subst |]. by rewrite bool_decide_eq_true_2. }
  assert (i < length (files (app u1)))%nat as Hi1
    by (by rewrite Hfs, swapFiles_length).
  destruct (drag_then_drop B u1 j i e Hj1 Hi1) as [Hfs2 Hd2].
  change (uiRun B [DragStart i; Drop j []; DragStart j; Drop i []] u)
    with (uiStep B (Drop i []) (uiStep B (DragStart j) u1)).
  split; [| exact Hd2].
  rewrite Hfs2, Hfs. apply list_eq. intros x.
  rewrite swapFiles_lookup by (rewrite ?swapFiles_length; done).
  rewrite swapFiles_lookup by done.
  f_equal. unfold transpose. repeat case_bool_decide; congruence.
Qed.

Lemma drag_drop_round_trip_witness :
  let u := {| app := twoFilledApp; dragIndex := None |} in
  files (app (uiRun sampleBrowser [DragStart 2; Drop 5 []] u))
  = swapFiles (Some 2%nat) 5 (files (app u))
  ∧ files (app (uiRun sampleBrowser
                  [DragStart 2; Drop 5 []; DragStart 5; Drop 2 []] u))
    = files (app u)
  ∧ dragIndex (uiRun sampleBrowser
                 [DragStart 2; Drop 5 []; DragStart 5; Drop 2 []] u)
    = None.
Proof.
  apply (drag_drop_round_trip sampleBrowser
           {| app := twoFilledApp; dragIndex := None |} 2 5
           (sampleEntry "a" "front.JPG")).
  - reflexivity.
  - simpl. lia.
Defined.





(** ** Names of the archive and of its entries *)

(** X25: the archive is named after the stem common to all the entries: its
    name is that stem followed by [.zip], and the filename of every position
    is the same stem followed by an underscore, the type token, a dot and
    the extension. *)
Theorem archive_and_entries_share_stem (E : Engine) (a : App) :
  ∃ stem,
    archiveName E a = stem ++ js ".zip"
    ∧ ∀ i item,
        buildFilename E a i item
        = stem ++ js "_" ++ imageTypeForIndex i ++ js "."
          ++ getExt E (Some (name (file item))).
Proof.
  exists (normalize E (product a) ++ js "_" ++ date a ++ js "_"
          ++ normalize E (diff a)).
  split.
  - unfold archiveName. rewrite <- !app_assoc. reflexivity.
  - intros i item. rewrite buildFilename_as_format. unfold filenameFormat.
    by rewrite <- !app_assoc.
Qed.

Lemma digitsFrom_length fuel n acc :
  (length acc < length (digitsFrom (S fuel) n acc))%nat.
Proof.
  revert n acc. induction fuel as [| fuel IH]; intros n acc.
  - change (digitsFrom 1 n acc)
      with (let acc' := (48 + N.of_nat (n mod 10)) :: acc in
            if (n / 10 =? 0)%nat then acc' else acc').
    cbv zeta. destruct (n / 10 =? 0)%nat; simpl length; lia.
  - change (digitsFrom (S (S fuel)) n acc)
      with (let acc' := (48 + N.of_nat (n mod 10)) :: acc in
            if (n / 10 =? 0)%nat then acc'
            else digitsFrom (S fuel) (n / 10) acc').
    cbv zeta. destruct (n / 10 =? 0)%nat; [simpl length; lia |].
    etrans; [| apply IH]. simpl length. lia.
Qed.

Lemma numberToString_two_units n :
  (10 ≤ n)%nat → (2 ≤ length (numberToString n))%nat.
Proof.
  intros Hn. unfold numberToString.
  destruct n as [| n]; [lia |].
  change (digitsFrom (S (S n)) (S n) [])
    with (let acc' := [48 + N.of_nat (S n mod 10)] in
          if (S n / 10 =? 0)%nat then acc'
          else digitsFrom (S n) (S n / 10) acc').
  cbv zeta.
  destruct (Nat.eqb_spec (S n / 10) 0) as [Hz | _].
  - apply Nat.div_small_iff in Hz; lia.
  - pose proof (digitsFrom_length n (S n / 10) [48 + N.of_nat (S n mod 10)]).
    simpl length in *. lia.
Qed.

(** X26: from position 10 on nothing is padded: the type token is [PT]
    followed by the decimal digits of the position, so that tokens past
    position 99 have more than four units. *)
Theorem imageTypeForIndex_no_padding (i : nat) :
  (10 ≤ i)%nat →
  imageTypeForIndex i = js "PT" ++ numberToString i
  ∧ (100 ≤ i → 4 < length (imageTypeForIndex i))%nat.
Proof.
  intros Hi.
  assert (imageTypeForIndex i = js "PT" ++ numberToString i) as Heq.
  { unfold imageTypeForIndex.
    rewrite (proj2 (Nat.eqb_neq i 0)) by lia. f_equal.
    unfold padStart.
    pose proof (numberToString_two_units i Hi).
    by rewrite (proj2 (Nat.leb_le 2 (length (numberToString i)))). }
  split; [done |]. intros H100. rewrite Heq, length_app.
  change (length (js "PT")) with 2%nat.
  enough (2 < length (numberToString i))%nat by lia.
  unfold numberToString. destruct i as [| i]; [lia |].
  change (digitsFrom (S (S i)) (S i) [])
    with (let acc' := [48 + N.of_nat (S i mod 10)] in
          if (S i / 10 =? 0)%nat then acc'
          else digitsFrom (S i) (S i / 10) acc').
  cbv zeta.
  assert (10 ≤ S i / 10)%nat as Hq
    by (apply Nat.div_le_lower_bound; lia).
  rewrite (proj2 (Nat.eqb_neq (S i / 10) 0)) by lia.
  destruct i as [| i]; [lia |].
  change (digitsFrom (S (S i)) (S (S i) / 10) [48 + N.of_nat (S (S i) mod 10)])
    with (let acc' := [48 + N.of_nat (S (S i) / 10 mod 10);
                       48 + N.of_nat (S (S i) mod 10)] in
          if (S (S i) / 10 / 10 =? 0)%nat then acc'
          else digitsFrom (S i) (S (S i) / 10 / 10) acc').
  cbv zeta.
  assert (1 ≤ S (S i) / 10 / 10)%nat
    by (apply Nat.div_le_lower_bound; lia).
  rewrite (proj2 (Nat.eqb_neq (S (S i) / 10 / 10) 0)) by lia.
  pose proof (digitsFrom_length i (S (S i) / 10 / 10)
                [48 + N.of_nat (S (S i) / 10 mod 10);
                 48 + N.of_nat (S (S i) mod 10)]).
  simpl length in *. lia.
Qed.

Lemma imageTypeForIndex_no_padding_witness :
  imageTypeForIndex 123 = js "PT" ++ numberToString 123
  ∧ (100 ≤ 123 → 4 < length (imageTypeForIndex 123))%nat.
Proof. apply (imageTypeForIndex_no_padding 123). lia. Defined.
